(** * songwalker-js: the preset loader (src/preset-loader.ts)

  A shallow embedding of the catalog/cache engine: the LRU cache, the
  index resolver, the search engine, the audio-reference resolver and
  the preload orchestrator, followed by the properties the
  specification states about them.

  Conventions of the embedding.
  - An ES [Map] iterates in insertion order, and the code relies on it
    (LRU eviction takes the first key), so a [Map] is an association
    list without repeated keys, oldest binding first.  An ES [Set] is a
    list without repetition, in insertion order.
  - A method that mutates [this] takes the state and returns the new
    one; a method that can [throw] returns a [result]; an [async]
    method is a computation in the monad [M] (state, error, and the
    environment that answers [fetch] and [decodeAudioData]).
  - Strings are sequences of 8-bit code units; [toLowerCase] and the
    [\s] class act on the ASCII range. *)

From Stdlib Require Import List String Ascii ZArith Lia Bool Arith.
From Stdlib Require Import Permutation Sorted QArith.
Import ListNotations.

Set Implicit Arguments.
Close Scope Q_scope.
Local Open Scope list_scope.

(* ================================================================== *)
(** * ES [Map]: an insertion-ordered finite map *)
(* ================================================================== *)

Module JsMap.
Section Defs.
Variables K V : Type.
Variable K_eq_dec : forall x y : K, {x = y} + {x <> y}.

Definition t := list (K * V).

Definition empty : t := [].

(** [m.get(k)]; [None] is [undefined]. *)
Fixpoint get (m : t) (k : K) : option V :=
  match m with
  | [] => None
  | (k', v) :: m' => if K_eq_dec k' k then Some v else get m' k
  end.

(** [m.has(k)] *)
Fixpoint has (m : t) (k : K) : bool :=
  match m with
  | [] => false
  | (k', _) :: m' => if K_eq_dec k' k then true else has m' k
  end.

(** [m.set(k, v)]: an existing key keeps its position, a new key goes
    to the end. *)
Fixpoint set (m : t) (k : K) (v : V) : t :=
  match m with
  | [] => [(k, v)]
  | (k', v') :: m' =>
      if K_eq_dec k' k then (k', v) :: m' else (k', v') :: set m' k v
  end.

(** [m.delete(k)] *)
Fixpoint delete (m : t) (k : K) : t :=
  match m with
  | [] => []
  | (k', v') :: m' =>
      if K_eq_dec k' k then m' else (k', v') :: delete m' k
  end.

(** [m.size] *)
Definition size (m : t) : nat := List.length m.

(** [Array.from(m.keys())] *)
Definition keys (m : t) : list K := map fst m.

(** [m.keys().next().value]; [None] when the iterator is exhausted. *)
Definition first_key (m : t) : option K :=
  match m with
  | [] => None
  | (k, _) :: _ => Some k
  end.

(** The representation invariant: no key is bound twice. *)
Definition wf (m : t) : Prop := NoDup (keys m).

End Defs.
End JsMap.

(* ================================================================== *)
(** * [class LRUCache<K, V>] *)
(* ================================================================== *)

Module LRU.
Section Defs.
Variables K V : Type.
Variable K_eq_dec : forall x y : K, {x = y} + {x <> y}.

(** [maxSize] is a JavaScript number; the loader passes integers (the
    defaults are 128 and 256), possibly zero or negative.  [V] is the
    type of the stored values; it never contains [undefined]
    (descriptors come out of [JSON.parse], buffers out of the audio
    context), so [cache.get(key) !== undefined] is [Some]. *)
Record LRUCache := mk {
  maxSize : Z;
  cache : JsMap.t K V
}.

(** [new LRUCache(maxSize)] *)
Definition new (n : Z) : LRUCache := mk n (@JsMap.empty K V).

Definition has (c : LRUCache) (key : K) : bool :=
  JsMap.has K_eq_dec (cache c) key.

(** [get(key)]: a hit is moved to the end (most recently used). *)
Definition get (c : LRUCache) (key : K) : option V * LRUCache :=
  match JsMap.get K_eq_dec (cache c) key with
  | Some value =>
      (Some value,
       mk (maxSize c)
          (JsMap.set K_eq_dec (JsMap.delete K_eq_dec (cache c) key) key value))
  | None => (None, c)
  end.

(** [set(key, value)] *)
Definition set (c : LRUCache) (key : K) (value : V) : LRUCache :=
  let m :=
    if JsMap.has K_eq_dec (cache c) key then
      JsMap.delete K_eq_dec (cache c) key
    else if (Z.of_nat (JsMap.size (cache c)) >=? maxSize c)%Z then
      (* Evict oldest (first item); on an empty map the iterator
         yields [undefined] and [delete(undefined)] removes nothing. *)
      match JsMap.first_key (cache c) with
      | Some oldest => JsMap.delete K_eq_dec (cache c) oldest
      | None => cache c
      end
    else cache c in
  mk (maxSize c) (JsMap.set K_eq_dec m key value).

Definition clear (c : LRUCache) : LRUCache := mk (maxSize c) (@JsMap.empty K V).

Definition size (c : LRUCache) : nat := JsMap.size (cache c).

(** The keys from least to most recently used. *)
Definition keys (c : LRUCache) : list K := JsMap.keys (cache c).




(** [n+1] (or any number of) insertions in a row. *)
Definition set_all (kvs : list (K * V)) (c : LRUCache) : LRUCache :=
  fold_left (fun c kv => set c (fst kv) (snd kv)) kvs c.

(** The class invariant. *)
Definition inv (c : LRUCache) : Prop :=
  JsMap.wf (cache c) /\ (Z.of_nat (size c) <= maxSize c)%Z.

End Defs.
End LRU.

(* ================================================================== *)
(** * The string methods the loader calls *)
(* ================================================================== *)

Module Str.
Local Open Scope string_scope.

Definition lower_ascii (c : ascii) : ascii :=
  let n := nat_of_ascii c in
  if (65 <=? n)%nat && (n <=? 90)%nat then ascii_of_nat (n + 32) else c.

(** [s.toLowerCase()] *)
Fixpoint toLowerCase (s : string) : string :=
  match s with
  | EmptyString => EmptyString
  | String c s' => String (lower_ascii c) (toLowerCase s')
  end.

(** [s.replace(/_/g, ' ')] *)
Fixpoint replace_underscores (s : string) : string :=
  match s with
  | EmptyString => EmptyString
  | String c s' =>
      String (if Ascii.eqb c "_" then " "%char else c) (replace_underscores s')
  end.

(** [s.startsWith(p)] *)
Definition startsWith (s p : string) : bool := String.prefix p s.

(** [s.includes(needle)] *)
Fixpoint includes (s needle : string) : bool :=
  String.prefix needle s ||
  match s with
  | EmptyString => false
  | String _ s' => includes s' needle
  end.

(** [s.indexOf(c)] for a one-character pattern; [-1] when absent. *)
Fixpoint indexOf (s : string) (c : ascii) : Z :=
  match s with
  | EmptyString => (-1)%Z
  | String d s' =>
      if Ascii.eqb d c then 0%Z
      else let i := indexOf s' c in
           if (i <? 0)%Z then (-1)%Z else (i + 1)%Z
  end.

(** [s.lastIndexOf(c)] for a one-character pattern; [-1] when absent. *)
Fixpoint lastIndexOf (s : string) (c : ascii) : Z :=
  match s with
  | EmptyString => (-1)%Z
  | String d s' =>
      let i := lastIndexOf s' c in
      if (0 <=? i)%Z then (i + 1)%Z
      else if Ascii.eqb d c then 0%Z else (-1)%Z
  end.

(** [s.substring(0, n)] and [s.slice(0, n)] for [0 <= n] *)
Fixpoint take (n : nat) (s : string) : string :=
  match n, s with
  | S n', String c s' => String c (take n' s')
  | _, _ => EmptyString
  end.

(** [s.substring(n)] for [0 <= n] *)
Fixpoint drop (n : nat) (s : string) : string :=
  match n, s with
  | S n', String _ s' => drop n' s'
  | _, _ => s
  end.

(** The class [\s] on the ASCII range: TAB, LF, VT, FF, CR and space. *)
Definition is_space (c : ascii) : bool :=
  let n := nat_of_ascii c in
  ((9 <=? n)%nat && (n <=? 13)%nat) || (n =? 32)%nat.

(** [s.split(/\s+/)]: the pieces between the maximal runs of white
    space; a string that starts (ends) with white space has an empty
    first (last) piece, and the empty string has the single piece [""].
    [cur] is the piece being read, [in_ws] tells that the previous
    character was white space. *)
Fixpoint split_ws_from (s : string) (cur : string) (in_ws : bool) : list string :=
  match s with
  | EmptyString => [cur]
  | String c s' =>
      if is_space c then
        if in_ws then split_ws_from s' cur true
        else cur :: split_ws_from s' EmptyString true
      else split_ws_from s' (cur ++ String c EmptyString) false
  end.

Definition split_ws (s : string) : list string :=
  split_ws_from s EmptyString false.

(** [s.replace(/\/$/, '')]: drop one trailing slash. *)
Fixpoint trim_trailing_slash (s : string) : string :=
  match s with
  | EmptyString => EmptyString
  | String c EmptyString => if Ascii.eqb c "/" then EmptyString else s
  | String c s' => String c (trim_trailing_slash s')
  end.

End Str.

(** [dirOf(url)] *)
Definition dirOf (url : string) : string :=
  let idx := Str.lastIndexOf url "/" in
  if (idx >? 0)%Z then Str.take (Z.to_nat idx) url else url.

(* ================================================================== *)
(** * [atob] and typed arrays *)
(* ================================================================== *)

(** [atob] is the host's forgiving-base64 decoder (WHATWG Infra): ASCII
    white space is dropped, one or two trailing [=] are dropped when the
    length is a multiple of four, a remaining length of 1 mod 4 or a
    character outside the alphabet is an [InvalidCharacterError], and
    the left-over bits of the last group are discarded. *)
Module Base64.

Definition is_ascii_whitespace (c : ascii) : bool :=
  let n := nat_of_ascii c in
  (n =? 9)%nat || (n =? 10)%nat || (n =? 12)%nat || (n =? 13)%nat || (n =? 32)%nat.

Fixpoint strip_whitespace (s : string) : list ascii :=
  match s with
  | EmptyString => []
  | String c s' =>
      if is_ascii_whitespace c then strip_whitespace s'
      else c :: strip_whitespace s'
  end.

(** The value of a character of the alphabet [A-Za-z0-9+/]. *)
Definition sextet (c : ascii) : option N :=
  let n := N_of_ascii c in
  if (65 <=? n)%N && (n <=? 90)%N then Some (n - 65)%N
  else if (97 <=? n)%N && (n <=? 122)%N then Some (n - 71)%N
  else if (48 <=? n)%N && (n <=? 57)%N then Some (n + 4)%N
  else if (n =? 43)%N then Some 62%N
  else if (n =? 47)%N then Some 63%N
  else None.

Definition is_pad (c : ascii) : bool := Ascii.eqb c "="%char.

(** Step 2 of the algorithm: remove up to two trailing [=]. *)
Definition strip_padding (l : list ascii) : list ascii :=
  if (List.length l mod 4 =? 0)%nat then
    match rev l with
    | a :: b :: r =>
        if is_pad a then (if is_pad b then rev r else rev (b :: r)) else l
    | _ => l
    end
  else l.

Fixpoint sextets (l : list ascii) : option (list N) :=
  match l with
  | [] => Some []
  | c :: l' =>
      match sextet c, sextets l' with
      | Some v, Some vs => Some (v :: vs)
      | _, _ => None
      end
  end.

Definition byte_of_N (n : N) : Byte.byte :=
  match Byte.of_N (n mod 256) with
  | Some b => b
  | None => Byte.x00
  end.

(** Groups of four sextets give three bytes; a last group of two gives
    one byte and one of three gives two. *)
Fixpoint group (l : list N) : list Byte.byte :=
  match l with
  | a :: b :: c :: d :: l' =>
      let w := (a * 262144 + b * 4096 + c * 64 + d)%N in
      byte_of_N (w / 65536) :: byte_of_N (w / 256) :: byte_of_N w :: group l'
  | [a; b; c] =>
      let w := (a * 4096 + b * 64 + c)%N in
      [byte_of_N (w / 1024); byte_of_N (w / 4)]
  | [a; b] =>
      let w := (a * 64 + b)%N in
      [byte_of_N (w / 16)]
  | _ => []
  end.

(** [atob(data)]; [None] is the [InvalidCharacterError]. *)
Definition atob (data : string) : option (list Byte.byte) :=
  let l := strip_padding (strip_whitespace data) in
  if (List.length l mod 4 =? 1)%nat then None
  else match sextets l with
       | Some vs => Some (group vs)
       | None => None
       end.

End Base64.

(** A sample of a [Float32Array] is its IEEE-754 binary32 bit pattern;
    the loader only moves samples around.  [new Float32Array(buffer)]
    reads four bytes per sample, least significant first (the byte order
    of every platform a browser runs on), and throws a [RangeError] when
    the byte length is not a multiple of four. *)
Definition float32 := N.

Fixpoint float32_of_bytes (l : list Byte.byte) : option (list float32) :=
  match l with
  | [] => Some []
  | b0 :: b1 :: b2 :: b3 :: l' =>
      match float32_of_bytes l' with
      | Some fs =>
          Some ((Byte.to_N b0 + 256 * Byte.to_N b1 + 65536 * Byte.to_N b2
                 + 16777216 * Byte.to_N b3)%N :: fs)
      | None => None
      end
  | _ => None
  end.

(* ================================================================== *)
(** * The documents of the catalog *)
(* ================================================================== *)

Local Open Scope string_scope.

(** Modelled from the spec: the type declarations of
    [src/preset-types.ts], which the loader imports: the index document
    ([PresetIndex], [IndexEntry], [SubIndexEntry], [PresetEntry]), the
    audio reference, the sampler configuration and the two fields of a
    preset descriptor that the loader reads. *)
Inductive PresetCategory : Type := synth | sampler | effect | composite.

Module SubIndexEntry.
Record t := mk {
  name : string;
  path : string;
  description : option string;
  presetCount : option Z;
  instrumentCount : option Z
}.
End SubIndexEntry.

Module PresetEntry.
Record t := mk {
  name : string;
  path : string;
  category : PresetCategory;
  tags : list string;
  gmProgram : option Z;
  zoneCount : option Z
}.
End PresetEntry.

(** [type: "index"] and [type: "preset"] *)
Inductive IndexEntry : Type :=
| Index (e : SubIndexEntry.t)
| Preset (e : PresetEntry.t).

Module PresetIndex.
Record t := mk {
  name : string;
  description : option string;
  entries : list IndexEntry
}.
End PresetIndex.

(** The four variants of an audio reference; an optional field that is
    absent is [None]. *)
Inductive AudioReference : Type :=
| external (path url sha256 : option string)
| contentAddressed (sha256 codec : string)
| inlineFile (data : string)
| inlinePcm (data : string) (sampleRate : Z).

(** A zone is an object of the parsed descriptor; [zone_id] is its
    identity, which is what a [Map<SampleZone, _>] compares. *)
Record SampleZone := mkZone {
  zone_id : nat;
  audio : AudioReference
}.

Record SamplerConfig := mkSampler {
  zones : list SampleZone
}.

(** [preset.node?.type] and [preset.node.config]; the configuration of
    a node that is not a sampler is not looked at. *)
Record PresetNode := mkNode {
  node_type : string;
  config : option SamplerConfig
}.

Record PresetDescriptor := mkDescriptor {
  node : option PresetNode
}.

(** An object together with its identity: two results are
    reference-identical when they are the same [Obj]. *)
Record Obj (A : Type) := mkObj {
  ref : nat;
  val : A
}.

(* ================================================================== *)
(** * The host: errors, [fetch], the audio context *)
(* ================================================================== *)

(** The [Error]s the loader throws, by message template, and the
    exceptions of the host functions it calls. *)
Inductive error : Type :=
| FetchFailed (what : string) (status : Z) (url : string)
    (* `Failed to fetch ${what}: ${status} ${url}` *)
| LibraryNotFound (name : string)     (* `Library not found: "${name}"` *)
| PresetNotFound (name : string)      (* `Preset not found: "${name}"` *)
| AudioContextNotSet
| ExternalWithoutPath   (* 'External audio reference has neither path nor url' *)
| NetworkError          (* [fetch] rejected *)
| JsonSyntaxError       (* [resp.json()] rejected *)
| InvalidCharacterError (* [atob] *)
| RangeError            (* [new Float32Array(buffer)] *)
| NotSupportedError     (* [ctx.createBuffer] *)
| EncodingError (msg : string).  (* [ctx.decodeAudioData] rejected *)

Inductive result (A : Type) : Type :=
| Ok (a : A)
| Err (e : error).
Arguments Ok {A} a.
Arguments Err {A} e.

(** A response: its status, what [resp.json()] yields when the body is
    read as an index or as a preset document ([None]: the body is no
    such document and [json()] rejects), and [resp.arrayBuffer()]. *)
Record Response := mkResponse {
  status : Z;
  json_index : option PresetIndex.t;
  json_preset : option PresetDescriptor;
  bytes : list Byte.byte
}.

(** [resp.ok] *)
Definition ok (r : Response) : bool :=
  (200 <=? status r)%Z && (status r <=? 299)%Z.

Inductive FetchOutcome : Type :=
| Responds (r : Response)
| Rejects.

(** The network answers a URL. *)
Definition Network := string -> FetchOutcome.

Module AudioBuffer.
Record t := mk {
  numberOfChannels : nat;
  length : nat;
  sampleRate : Z;
  channels : list (list float32)
}.
End AudioBuffer.

(** The audio context: the external decode capability, and the buffer
    shapes [createBuffer] accepts (the admissible lengths and rates are
    the implementation's). *)
Record AudioContext := mkContext {
  decodeAudioData : list Byte.byte -> result AudioBuffer.t;
  supports : nat -> nat -> Z -> bool
}.

(** [ctx.createBuffer(numberOfChannels, length, sampleRate)]: silence. *)
Definition createBuffer (ctx : AudioContext) (n len : nat) (rate : Z)
  : result AudioBuffer.t :=
  if supports ctx n len rate then
    Ok (AudioBuffer.mk n len rate (repeat (repeat 0%N len) n))
  else Err NotSupportedError.

(** [TypedArray.set]-like copy of [src] over the start of [dst]. *)
Fixpoint overwrite (dst src : list float32) : list float32 :=
  match dst, src with
  | _ :: dst', s :: src' => s :: overwrite dst' src'
  | _, _ => dst
  end.

Fixpoint update_nth (A : Type) (n : nat) (f : A -> A) (l : list A) : list A :=
  match n, l with
  | O, x :: l' => f x :: l'
  | S n', x :: l' => x :: update_nth n' f l'
  | _, [] => []
  end.

(** [buffer.copyToChannel(source, channelNumber)] for an existing
    channel. *)
Definition copyToChannel (b : AudioBuffer.t) (source : list float32)
  (channelNumber : nat) : AudioBuffer.t :=
  AudioBuffer.mk (AudioBuffer.numberOfChannels b) (AudioBuffer.length b)
    (AudioBuffer.sampleRate b)
    (update_nth channelNumber (fun ch => overwrite ch source)
       (AudioBuffer.channels b)).

(* ================================================================== *)
(** * The state of a [PresetLoader] *)
(* ================================================================== *)

Record LoadedLibrary := mkLoaded {
  index : Obj PresetIndex.t;
  baseUrl : string
}.

Module PresetLoader.
Record t := mk {
  baseUrl : string;
  rootIndex : option (Obj PresetIndex.t);
  loadedLibraries : JsMap.t string (Obj LoadedLibrary);
  enabledLibraries : list string;
  presetCache : LRU.LRUCache string PresetDescriptor;
  audioCache : LRU.LRUCache string AudioBuffer.t;
  _audioContext : option AudioContext
}.
End PresetLoader.

(** The loader and what it did to the world around it: the URLs given
    to [fetch], the buffers given to [decodeAudioData], the calls of
    [console.warn], and the next fresh object identity. *)
Record World := mkWorld {
  this : PresetLoader.t;
  fetched : list string;
  decoded : list (list Byte.byte);
  warned : list (string * error);
  nextRef : nat
}.

(** [new PresetLoader(baseUrl, options)] *)
Definition newLoader (baseUrl : string)
  (presetCacheSize audioCacheSize : option Z) : PresetLoader.t :=
  PresetLoader.mk (Str.trim_trailing_slash baseUrl) None (@JsMap.empty _ _) []
    (LRU.new _ _ (match presetCacheSize with Some n => n | None => 128%Z end))
    (LRU.new _ _ (match audioCacheSize with Some n => n | None => 256%Z end))
    None.

Definition newWorld (l : PresetLoader.t) : World := mkWorld l [] [] [] 0.

(** Field updates *)
Definition with_this (f : PresetLoader.t -> PresetLoader.t) (w : World) : World :=
  mkWorld (f (this w)) (fetched w) (decoded w) (warned w) (nextRef w).

Definition set_rootIndex (r : option (Obj PresetIndex.t)) (l : PresetLoader.t) :=
  PresetLoader.mk (PresetLoader.baseUrl l) r (PresetLoader.loadedLibraries l)
    (PresetLoader.enabledLibraries l) (PresetLoader.presetCache l) (PresetLoader.audioCache l)
    (PresetLoader._audioContext l).

Definition set_loadedLibraries (m : JsMap.t string (Obj LoadedLibrary))
  (l : PresetLoader.t) :=
  PresetLoader.mk (PresetLoader.baseUrl l) (PresetLoader.rootIndex l) m
    (PresetLoader.enabledLibraries l) (PresetLoader.presetCache l) (PresetLoader.audioCache l)
    (PresetLoader._audioContext l).

Definition set_enabledLibraries (s : list string) (l : PresetLoader.t) :=
  PresetLoader.mk (PresetLoader.baseUrl l) (PresetLoader.rootIndex l) (PresetLoader.loadedLibraries l)
    s (PresetLoader.presetCache l) (PresetLoader.audioCache l) (PresetLoader._audioContext l).

Definition set_presetCache (c : LRU.LRUCache string PresetDescriptor)
  (l : PresetLoader.t) :=
  PresetLoader.mk (PresetLoader.baseUrl l) (PresetLoader.rootIndex l) (PresetLoader.loadedLibraries l)
    (PresetLoader.enabledLibraries l) c (PresetLoader.audioCache l) (PresetLoader._audioContext l).

Definition set_audioCache (c : LRU.LRUCache string AudioBuffer.t)
  (l : PresetLoader.t) :=
  PresetLoader.mk (PresetLoader.baseUrl l) (PresetLoader.rootIndex l) (PresetLoader.loadedLibraries l)
    (PresetLoader.enabledLibraries l) (PresetLoader.presetCache l) c (PresetLoader._audioContext l).

(** [setAudioContext(ctx)] *)
Definition setAudioContext (ctx : AudioContext) (l : PresetLoader.t) :=
  PresetLoader.mk (PresetLoader.baseUrl l) (PresetLoader.rootIndex l) (PresetLoader.loadedLibraries l)
    (PresetLoader.enabledLibraries l) (PresetLoader.presetCache l) (PresetLoader.audioCache l)
    (Some ctx).

(** [set.add(x)] on an ES [Set] *)
Definition set_add (x : string) (s : list string) : list string :=
  if in_dec string_dec x s then s else s ++ [x].

(** [set.delete(x)] *)
Definition set_delete (x : string) (s : list string) : list string :=
  filter (fun y => negb (String.eqb y x)) s.

(* ================================================================== *)
(** * Computations: state and exceptions *)
(* ================================================================== *)

(** A method body: it runs from a world and ends with a value or a
    thrown error, in a new world.  What was mutated before a [throw]
    stays mutated.  An [await] of a host promise is answered at once:
    one call runs to its end before the next one starts. *)
Definition M (A : Type) : Type := World -> result A * World.

Definition ret {A} (a : A) : M A := fun w => (Ok a, w).

Definition throw {A} (e : error) : M A := fun w => (Err e, w).

Definition bind {A B} (m : M A) (k : A -> M B) : M B :=
  fun w =>
    match m w with
    | (Ok a, w') => k a w'
    | (Err e, w') => (Err e, w')
    end.

(** [try { m } catch (err) { h(err) }] *)
Definition try_catch {A} (m : M A) (h : error -> M A) : M A :=
  fun w =>
    match m w with
    | (Ok a, w') => (Ok a, w')
    | (Err e, w') => h e w'
    end.

Declare Scope js_scope.
Delimit Scope js_scope with js.
Notation "x <- c1 ;; c2" := (bind c1 (fun x => c2))
  (at level 61, c1 at next level, right associativity) : js_scope.
Notation "c1 ;;; c2" := (bind c1 (fun _ => c2))
  (at level 61, right associativity) : js_scope.
Local Open Scope js_scope.

Definition get_this : M PresetLoader.t := fun w => (Ok (this w), w).

Definition modify_this (f : PresetLoader.t -> PresetLoader.t) : M unit :=
  fun w => (Ok tt, with_this f w).

(** [{ ... }] or a parsed document: a new object. *)
Definition alloc {A} (a : A) : M (Obj A) :=
  fun w =>
    (Ok (mkObj (nextRef w) a),
     mkWorld (this w) (fetched w) (decoded w) (warned w) (S (nextRef w))).

(** [console.warn(`[PresetLoader] Failed to preload "${name}":`, err)] *)
Definition console_warn (name : string) (err : error) : M unit :=
  fun w =>
    (Ok tt,
     mkWorld (this w) (fetched w) (decoded w) (warned w ++ [(name, err)])
       (nextRef w)).

Definition log_fetch (url : string) (w : World) : World :=
  mkWorld (this w) (fetched w ++ [url]) (decoded w) (warned w) (nextRef w).

Definition log_decode (b : list Byte.byte) (w : World) : World :=
  mkWorld (this w) (fetched w) (decoded w ++ [b]) (warned w) (nextRef w).

(** [await fetch(url)] *)
Definition fetch (net : Network) (url : string) : M Response :=
  fun w =>
    match net url with
    | Responds r => (Ok r, log_fetch url w)
    | Rejects => (Err NetworkError, log_fetch url w)
    end.

(** [await resp.json() as PresetIndex] *)
Definition json_as_index (r : Response) : M (Obj PresetIndex.t) :=
  match json_index r with
  | Some i => alloc i
  | None => throw JsonSyntaxError
  end.

(** [await resp.json() as PresetDescriptor] *)
Definition json_as_preset (r : Response) : M PresetDescriptor :=
  match json_preset r with
  | Some p => ret p
  | None => throw JsonSyntaxError
  end.

(** [await ctx.decodeAudioData(arrayBuffer)] *)
Definition await_decodeAudioData (ctx : AudioContext) (b : list Byte.byte)
  : M AudioBuffer.t :=
  fun w => (decodeAudioData ctx b, log_decode b w).

(* ================================================================== *)
(** * Index loading *)
(* ================================================================== *)

Definition is_index (e : IndexEntry) : bool :=
  match e with Index _ => true | Preset _ => false end.

(** [entries.find((e): e is SubIndexEntry => e.type === 'index' && p(e))] *)
Fixpoint find_sub (p : SubIndexEntry.t -> bool) (entries : list IndexEntry)
  : option SubIndexEntry.t :=
  match entries with
  | [] => None
  | Index e :: rest => if p e then Some e else find_sub p rest
  | Preset _ :: rest => find_sub p rest
  end.

(** The three predicates of [loadLibrary], in the order it tries them. *)
Definition match_exact (name : string) (e : SubIndexEntry.t) : bool :=
  String.eqb (SubIndexEntry.name e) name.

Definition match_normalized (name : string) (e : SubIndexEntry.t) : bool :=
  let normalized := Str.replace_underscores name in
  String.eqb (Str.toLowerCase (Str.replace_underscores (SubIndexEntry.name e)))
             (Str.toLowerCase normalized).

Definition match_prefix (name : string) (e : SubIndexEntry.t) : bool :=
  Str.startsWith (SubIndexEntry.path e) (name ++ "/").

(** The part of [loadLibrary] that picks [libEntry]. *)
Definition resolveLibEntry (name : string) (entries : list IndexEntry)
  : option SubIndexEntry.t :=
  (* Try exact match first *)
  let libEntry := find_sub (match_exact name) entries in
  (* Fall back: normalize underscores <-> spaces for matching *)
  let libEntry :=
    match libEntry with
    | Some e => Some e
    | None => find_sub (match_normalized name) entries
    end in
  (* Fall back: match by directory prefix in path *)
  match libEntry with
  | Some e => Some e
  | None => find_sub (match_prefix name) entries
  end.

Section Engine.
Variable net : Network.

(** [loadRootIndex()] *)
Definition loadRootIndex : M (Obj PresetIndex.t) :=
  l <- get_this ;;
  match PresetLoader.rootIndex l with
  | Some root => ret root
  | None =>
      let url := PresetLoader.baseUrl l ++ "/index.json" in
      resp <- fetch net url ;;
      if negb (ok resp) then throw (FetchFailed "root index" (status resp) url)
      else
        root <- json_as_index resp ;;
        modify_this (set_rootIndex (Some root)) ;;;
        ret root
  end.

Definition register (name : string) (loaded : Obj LoadedLibrary) : M unit :=
  modify_this (fun l =>
    set_loadedLibraries
      (JsMap.set string_dec (PresetLoader.loadedLibraries l) name loaded) l).

(** [loadLibrary(name)] *)
Definition loadLibrary (name : string) : M (Obj LoadedLibrary) :=
  l <- get_this ;;
  match JsMap.get string_dec (PresetLoader.loadedLibraries l) name with
  | Some loaded => ret loaded
  | None =>
      root <- loadRootIndex ;;
      let entries := PresetIndex.entries (val root) in
      (* Check if this is a flat index (root index IS the library) *)
      let hasSubIndexes := existsb is_index entries in
      if negb hasSubIndexes && String.eqb (PresetIndex.name (val root)) name
      then
        loaded <- alloc (mkLoaded root (PresetLoader.baseUrl l)) ;;
        register name loaded ;;;
        ret loaded
      else
        match resolveLibEntry name entries with
        | None => throw (LibraryNotFound name)
        | Some libEntry =>
            let libUrl := PresetLoader.baseUrl l ++ "/" ++ SubIndexEntry.path libEntry in
            resp <- fetch net libUrl ;;
            if negb (ok resp)
            then throw (FetchFailed "library index" (status resp) libUrl)
            else
              index <- json_as_index resp ;;
              let baseUrl := dirOf libUrl in
              loaded <- alloc (mkLoaded index baseUrl) ;;
              (* Store under both the requested name and the canonical
                 name from the index *)
              register name loaded ;;;
              (if negb (String.eqb (SubIndexEntry.name libEntry) name)
               then register (SubIndexEntry.name libEntry) loaded
               else ret tt) ;;;
              ret loaded
        end
  end.

(** [enableLibrary(name)] *)
Definition enableLibrary (name : string) : M unit :=
  loadLibrary name ;;;
  modify_this (fun l =>
    set_enabledLibraries (set_add name (PresetLoader.enabledLibraries l)) l).

End Engine.

(** [disableLibrary(name)] *)
Definition disableLibrary (name : string) (l : PresetLoader.t) : PresetLoader.t :=
  set_enabledLibraries (set_delete name (PresetLoader.enabledLibraries l)) l.

(** [getEnabledLibraries()] *)
Definition getEnabledLibraries (l : PresetLoader.t) : list string :=
  PresetLoader.enabledLibraries l.

(* ================================================================== *)
(** * Search *)
(* ================================================================== *)

Module SearchOptions.
Record t := mk {
  library : option string;
  category : option PresetCategory;
  gmProgram : option Z;
  tags : option (list string);
  name : option string
}.
(** [{}] *)
Definition none : t := mk None None None None None.
End SearchOptions.

Definition PresetCategory_eqb (a b : PresetCategory) : bool :=
  match a, b with
  | synth, synth | sampler, sampler | effect, effect
  | composite, composite => true
  | _, _ => false
  end.

(** The preset entries of an index, in document order. *)
Definition presets_of (entries : list IndexEntry) : list PresetEntry.t :=
  flat_map (fun e => match e with Preset p => [p] | Index _ => [] end) entries.

(** [_getEnabledPresets()]: records [{ libraryName, entry }] *)
Definition _getEnabledPresets (l : PresetLoader.t) : list (string * PresetEntry.t) :=
  flat_map
    (fun libraryName =>
       match JsMap.get string_dec (PresetLoader.loadedLibraries l) libraryName with
       | None => []
       | Some lib =>
           map (fun entry => (libraryName, entry))
             (presets_of (PresetIndex.entries (val (index (val lib)))))
       end)
    (PresetLoader.enabledLibraries l).

(** A string is truthy when it is not empty. *)
Definition truthy (s : string) : bool := negb (String.eqb s "").

(** [if (cond) results = results.filter(p)] *)
Definition filter_if {A} (cond : bool) (p : A -> bool) (results : list A) :=
  if cond then filter p results else results.

Definition option_Z_eqb (a : option Z) (b : Z) : bool :=
  match a with Some x => Z.eqb x b | None => false end.

(** [search(options)] *)
Definition search (options : SearchOptions.t) (l : PresetLoader.t)
  : list PresetEntry.t :=
  let results := _getEnabledPresets l in
  let results :=
    match SearchOptions.library options with
    | Some library =>
        filter_if (truthy library)
          (fun r => String.eqb (Str.toLowerCase (fst r))
                      (Str.toLowerCase library)) results
    | None => results
    end in
  let results :=
    match SearchOptions.category options with
    | Some category =>
        filter (fun r => PresetCategory_eqb (PresetEntry.category (snd r)) category)
          results
    | None => results
    end in
  let results :=
    match SearchOptions.gmProgram options with
    | Some gmProgram =>
        filter (fun r => option_Z_eqb (PresetEntry.gmProgram (snd r)) gmProgram)
          results
    | None => results
    end in
  let results :=
    match SearchOptions.tags options with
    | Some tags =>
        filter_if (0 <? List.length tags)%nat
          (let searchTags := map Str.toLowerCase tags in
           fun r =>
             existsb (fun t => existsb (String.eqb (Str.toLowerCase t)) searchTags)
               (PresetEntry.tags (snd r)))
          results
    | None => results
    end in
  let results :=
    match SearchOptions.name options with
    | Some name =>
        filter_if (truthy name)
          (let needle := Str.toLowerCase name in
           fun r => Str.includes (Str.toLowerCase (PresetEntry.name (snd r))) needle)
          results
    | None => results
    end in
  map snd results.

(** ** Fuzzy search *)

(** The scores are 100, 80, 60, 40 and [(matchCount / words.length) * 30];
    the last is a double in the source.  All entries are scored against
    the same query, hence with the same [words.length], and rounding is
    monotone, so comparing the doubles is comparing the rationals. *)
Definition score_of (needle : string) (entry : PresetEntry.t) : Q :=
  let name := Str.toLowerCase (PresetEntry.name entry) in
  if String.eqb name needle then 100%Q
  else if Str.startsWith name needle then 80%Q
  else if Str.includes name needle then 60%Q
  else if existsb (fun t => Str.includes (Str.toLowerCase t) needle)
            (PresetEntry.tags entry) then 40%Q
  else
    let words := Str.split_ws needle in
    let matchCount :=
      List.length
        (filter (fun w =>
                   Str.includes name w ||
                   existsb (fun t => Str.includes (Str.toLowerCase t) w)
                     (PresetEntry.tags entry))
           words) in
    (inject_Z (Z.of_nat matchCount) / inject_Z (Z.of_nat (List.length words))
     * 30)%Q.

Definition Qltb (x y : Q) : bool := negb (Qle_bool y x).

(** [array.sort(compare)]: the sort is stable, so its result is that of
    the insertion sort below, whatever the engine's algorithm. *)
Fixpoint insert_sorted {A} (compare : A -> A -> Q) (x : A) (l : list A) : list A :=
  match l with
  | [] => [x]
  | y :: l' =>
      if Qltb (compare y x) 0%Q then y :: insert_sorted compare x l'
      else x :: y :: l'
  end.

Fixpoint sort {A} (compare : A -> A -> Q) (l : list A) : list A :=
  match l with
  | [] => []
  | x :: l' => insert_sorted compare x (sort compare l')
  end.

(** The comparator [(a, b) => b.score - a.score] *)
Definition by_score_desc {A : Type} (a b : A * Q) : Q := (snd b - snd a)%Q.

(** The chain of [fuzzySearch] up to and including [sort]: records
    [{ entry, score }]. *)
Definition fuzzy_ranked (query : string) (l : PresetLoader.t)
  : list (PresetEntry.t * Q) :=
  let needle := Str.toLowerCase query in
  let allPresets := _getEnabledPresets l in
  sort by_score_desc
    (filter (fun s => Qltb 0%Q (snd s))
       (map (fun r => (snd r, score_of needle (snd r))) allPresets)).

(** [fuzzySearch(query, limit)]; [limit] is a count, so that
    [slice(0, limit)] keeps the first [limit] records. *)
Definition fuzzySearch (query : string) (limit : nat) (l : PresetLoader.t)
  : list PresetEntry.t :=
  map fst (firstn limit (fuzzy_ranked query l)).

(* ================================================================== *)
(** * Loading presets *)
(* ================================================================== *)

(** [findLibraryForEntry(entry)] *)
Definition findLibraryForEntry (entry : PresetEntry.t) (l : PresetLoader.t)
  : option string :=
  option_map fst
    (find (fun kv =>
             existsb (fun e =>
                        match e with
                        | Preset p =>
                            String.eqb (PresetEntry.name p) (PresetEntry.name entry)
                            && String.eqb (PresetEntry.path p) (PresetEntry.path entry)
                        | Index _ => false
                        end)
               (PresetIndex.entries (val (index (val (snd kv))))))
       (PresetLoader.loadedLibraries l)).

(** [resolvePresetUrl(path, libraryName)] *)
Definition resolvePresetUrl (path : string) (libraryName : option string)
  (l : PresetLoader.t) : string :=
  let fallback := PresetLoader.baseUrl l ++ "/" ++ path in
  match libraryName with
  | Some libraryName =>
      if truthy libraryName then
        match JsMap.get string_dec (PresetLoader.loadedLibraries l) libraryName with
        | Some lib => baseUrl (val lib) ++ "/" ++ path
        | None => fallback
        end
      else fallback
  | None => fallback
  end.

Section Presets.
Variable net : Network.

(** [_fetchPreset(url, cacheKey)] *)
Definition _fetchPreset (url cacheKey : string) : M PresetDescriptor :=
  l <- get_this ;;
  match LRU.get string_dec (PresetLoader.presetCache l) cacheKey with
  | (Some preset, c) => modify_this (set_presetCache c) ;;; ret preset
  | (None, _) =>
      resp <- fetch net url ;;
      if negb (ok resp) then throw (FetchFailed "preset" (status resp) url)
      else
        preset <- json_as_preset resp ;;
        modify_this (fun l =>
          set_presetCache (LRU.set string_dec (PresetLoader.presetCache l) cacheKey preset) l) ;;;
        ret preset
  end.

Record PresetWithContext := mkCtx {
  preset : PresetDescriptor;
  presetUrl : string;
  entry : PresetEntry.t;
  libraryName : option string
}.

(** [loadPresetWithContext(name)] *)
Definition loadPresetWithContext (name : string) : M PresetWithContext :=
  let fallback : M PresetWithContext :=
    (* Fall back to searching all enabled libraries *)
    l <- get_this ;;
    match search (SearchOptions.mk None None None None (Some name)) l with
    | [] => throw (PresetNotFound name)
    | entry :: _ =>
        let libraryName := findLibraryForEntry entry l in
        let presetUrl := resolvePresetUrl (PresetEntry.path entry) libraryName l in
        preset <- _fetchPreset presetUrl (PresetEntry.path entry) ;;
        ret (mkCtx preset presetUrl entry libraryName)
    end in
  (* Check for library prefix: "LibraryName/PresetName" *)
  let slashIdx := Str.indexOf name "/" in
  if (slashIdx >? 0)%Z then
    let libName := Str.take (Z.to_nat slashIdx) name in
    let presetName := Str.drop (Z.to_nat (slashIdx + 1)) name in
    l <- get_this ;;
    (* Ensure library is loaded and enabled *)
    (if negb (if in_dec string_dec libName (PresetLoader.enabledLibraries l)
              then true else false)
     then enableLibrary net libName else ret tt) ;;;
    l <- get_this ;;
    match search (SearchOptions.mk (Some libName) None None None (Some presetName)) l with
    | entry :: _ =>
        let libraryName := libName in
        let presetUrl :=
          resolvePresetUrl (PresetEntry.path entry) (Some libraryName) l in
        preset <- _fetchPreset presetUrl (PresetEntry.path entry) ;;
        ret (mkCtx preset presetUrl entry (Some libraryName))
    | [] => fallback
    end
  else fallback.

(** [loadPreset(name)] *)
Definition loadPreset (name : string) : M PresetDescriptor :=
  result <- loadPresetWithContext name ;;
  ret (preset result).

End Presets.

(* ================================================================== *)
(** * Audio decoding *)
(* ================================================================== *)

(** [decodeAudio] runs without suspension up to its first [await] of
    the host, and its remainder runs when the host answers.  The two
    halves are separate, so that the zones of a sampler can be started
    in a row and completed in the order the host answers them. *)
Inductive Plan : Type :=
| AwaitFetch (ctx : AudioContext) (cacheKey sampleUrl : string)
    (* suspended at [await fetch(sampleUrl)] *)
| AwaitDecode (ctx : AudioContext) (cacheKey : string)
    (arrayBuffer : list Byte.byte).
    (* suspended at [await ctx.decodeAudioData(arrayBuffer)] *)

Inductive Started : Type :=
| Settled (r : result AudioBuffer.t)
| Suspended (p : Plan).

(** [if (this.audioCache.has(cacheKey)) return this.audioCache.get(cacheKey)!] *)
Definition audioCache_lookup (cacheKey : string) (w : World)
  : option AudioBuffer.t * World :=
  match LRU.get string_dec (PresetLoader.audioCache (this w)) cacheKey with
  | (Some b, c) => (Some b, with_this (set_audioCache c) w)
  | (None, _) => (None, w)
  end.

(** [this.audioCache.set(cacheKey, buffer)] *)
Definition audioCache_store (cacheKey : string) (b : AudioBuffer.t) (w : World)
  : World :=
  with_this (fun l =>
    set_audioCache (LRU.set string_dec (PresetLoader.audioCache l) cacheKey b) l) w.

(** [decodeAudio(ref_, presetUrl)] up to the first [await] *)
Definition decodeAudio_start (ref_ : AudioReference) (presetUrl : option string)
  (w : World) : Started * World :=
  match PresetLoader._audioContext (this w) with
  | None => (Settled (Err AudioContextNotSet), w)
  | Some ctx =>
      match ref_ with
      | external path url sha256 =>
          (* Preset files may use either 'path' or 'url' *)
          let filePath := match path with Some p => Some p | None => url end in
          match filePath with
          | None => (Settled (Err ExternalWithoutPath), w)
          | Some filePath =>
              if negb (truthy filePath)
              then (Settled (Err ExternalWithoutPath), w)
              else
                let fromRoot := PresetLoader.baseUrl (this w) ++ "/" ++ filePath in
                let sampleUrl :=
                  match presetUrl with
                  | Some u =>
                      if truthy u then dirOf u ++ "/" ++ filePath else fromRoot
                  | None => fromRoot
                  end in
                let cacheKey :=
                  match sha256 with Some s => s | None => sampleUrl end in
                match audioCache_lookup cacheKey w with
                | (Some b, w') => (Settled (Ok b), w')
                | (None, w') =>
                    (Suspended (AwaitFetch ctx cacheKey sampleUrl),
                     log_fetch sampleUrl w')
                end
          end
      | contentAddressed sha256 codec =>
          let cacheKey := sha256 in
          match audioCache_lookup cacheKey w with
          | (Some b, w') => (Settled (Ok b), w')
          | (None, w') =>
              let shaUrl :=
                PresetLoader.baseUrl (this w) ++ "/samples/" ++ sha256 ++ "." ++ codec in
              (Suspended (AwaitFetch ctx cacheKey shaUrl), log_fetch shaUrl w')
          end
      | inlineFile data =>
          let cacheKey := "inline:" ++ Str.take 32 data in
          match audioCache_lookup cacheKey w with
          | (Some b, w') => (Settled (Ok b), w')
          | (None, w') =>
              match Base64.atob data with
              | None => (Settled (Err InvalidCharacterError), w')
              | Some arrayBuffer =>
                  (Suspended (AwaitDecode ctx cacheKey arrayBuffer),
                   log_decode arrayBuffer w')
              end
          end
      | inlinePcm data sampleRate =>
          let cacheKey := "pcm:" ++ Str.take 32 data in
          match audioCache_lookup cacheKey w with
          | (Some b, w') => (Settled (Ok b), w')
          | (None, w') =>
              (* Decode base64 -> Float32Array PCM *)
              match Base64.atob data with
              | None => (Settled (Err InvalidCharacterError), w')
              | Some pcmBytes =>
                  match float32_of_bytes pcmBytes with
                  | None => (Settled (Err RangeError), w')
                  | Some pcmFloat =>
                      match createBuffer ctx 1 (List.length pcmFloat) sampleRate with
                      | Err e => (Settled (Err e), w')
                      | Ok pcmBuffer =>
                          let pcmBuffer := copyToChannel pcmBuffer pcmFloat 0 in
                          (Settled (Ok pcmBuffer),
                           audioCache_store cacheKey pcmBuffer w')
                      end
                  end
              end
          end
      end
  end.

Section Audio.
Variable net : Network.

(** The tail of [decodeAudio]:
    [decoded = await ctx.decodeAudioData(arrayBuffer);
     this.audioCache.set(cacheKey, decoded); return decoded] *)
Definition decode_and_store (ctx : AudioContext) (cacheKey : string)
  (answer : result AudioBuffer.t) : M AudioBuffer.t :=
  fun w =>
    match answer with
    | Ok decoded => (Ok decoded, audioCache_store cacheKey decoded w)
    | Err e => (Err e, w)
    end.

(** [decodeAudio] from the point where it was suspended *)
Definition decodeAudio_resume (p : Plan) : M AudioBuffer.t :=
  match p with
  | AwaitFetch ctx cacheKey sampleUrl =>
      fun w =>
        match net sampleUrl with
        | Rejects => (Err NetworkError, w)
        | Responds resp =>
            if negb (ok resp)
            then (Err (FetchFailed "sample" (status resp) sampleUrl), w)
            else
              let arrayBuffer := bytes resp in
              decode_and_store ctx cacheKey (decodeAudioData ctx arrayBuffer)
                (log_decode arrayBuffer w)
        end
  | AwaitDecode ctx cacheKey arrayBuffer =>
      decode_and_store ctx cacheKey (decodeAudioData ctx arrayBuffer)
  end.


(** ** [decodeSamplerZones] *)

(** [config.zones.map(async (zone) => ...)] calls the arrow function on
    every zone in turn; each call runs [decodeAudio] up to its first
    suspension. *)
Fixpoint start_zones (zs : list SampleZone) (presetUrl : option string)
  (w : World) : list (SampleZone * Started) * World :=
  match zs with
  | [] => ([], w)
  | zone :: zs' =>
      let (s, w1) := decodeAudio_start (audio zone) presetUrl w in
      let (rest, w2) := start_zones zs' presetUrl w1 in
      ((zone, s) :: rest, w2)
  end.

Definition settled_of (l : list (SampleZone * Started))
  : list (SampleZone * result AudioBuffer.t) :=
  flat_map (fun zs => match snd zs with
                      | Settled r => [(fst zs, r)]
                      | Suspended _ => []
                      end) l.

Definition suspended_of (l : list (SampleZone * Started))
  : list (SampleZone * Plan) :=
  flat_map (fun zs => match snd zs with
                      | Settled _ => []
                      | Suspended p => [(fst zs, p)]
                      end) l.

(** The host answers the suspended calls in an order of its own.  A
    schedule is a list of numbers: each picks the next call to answer
    among those still suspended; when it is used up, the rest are
    answered in their order.  Every order is some schedule's. *)
Fixpoint extract {A} (k : nat) (l : list A) {struct l}
  : option (A * list A) :=
  match l with
  | [] => None
  | x :: l' =>
      match k with
      | O => Some (x, l')
      | S k' =>
          match extract k' l' with
          | Some (y, r) => Some (y, x :: r)
          | None => None
          end
      end
  end.

Fixpoint schedule_order {A} (sched : list nat) (l : list A) : list A :=
  match sched with
  | [] => l
  | k :: sched' =>
      match extract (k mod List.length l) l with
      | Some (x, r) => x :: schedule_order sched' r
      | None => l
      end
  end.

Fixpoint resume_zones (ps : list (SampleZone * Plan)) (w : World)
  : list (SampleZone * result AudioBuffer.t) * World :=
  match ps with
  | [] => ([], w)
  | (zone, p) :: ps' =>
      let (r, w1) := decodeAudio_resume p w in
      let (rest, w2) := resume_zones ps' w1 in
      ((zone, r) :: rest, w2)
  end.

(** How each zone's [decodeAudio] ended, in the order in which they
    ended: first the calls that were never suspended, then the others
    as the host answered them. *)
Definition settle_zones (sched : list nat) (config : SamplerConfig)
  (presetUrl : option string) (w : World)
  : list (SampleZone * result AudioBuffer.t) * World :=
  let (started, w1) := start_zones (zones config) presetUrl w in
  let (late, w2) :=
    resume_zones (schedule_order sched (suspended_of started)) w1 in
  ((settled_of started ++ late)%list, w2).

(** [Promise.all] rejects with the first rejection. *)
Fixpoint first_rejection {A B} (l : list (A * result B)) : option error :=
  match l with
  | [] => None
  | (_, Err e) :: _ => Some e
  | (_, Ok _) :: l' => first_rejection l'
  end.

(** [result.set(zone, buffer)], which a zone reaches when its
    [decodeAudio] has returned a buffer *)
Definition record_zone (m : JsMap.t nat AudioBuffer.t)
  (zr : SampleZone * result AudioBuffer.t) : JsMap.t nat AudioBuffer.t :=
  match snd zr with
  | Ok buffer => JsMap.set Nat.eq_dec m (zone_id (fst zr)) buffer
  | Err _ => m
  end.

(** The map [result] once every zone has settled *)
Definition zone_map (l : list (SampleZone * result AudioBuffer.t))
  : JsMap.t nat AudioBuffer.t :=
  fold_left record_zone l (@JsMap.empty nat AudioBuffer.t).

(** [decodeSamplerZones(config, presetUrl)] under a schedule *)
Definition decodeSamplerZones (sched : list nat) (config : SamplerConfig)
  (presetUrl : option string) : M (JsMap.t nat AudioBuffer.t) :=
  fun w =>
    let (outcomes, w') := settle_zones sched config presetUrl w in
    match first_rejection outcomes with
    | Some e => (Err e, w')
    | None => (Ok (zone_map outcomes), w')
    end.

End Audio.

(** [clearCaches()] *)
Definition clearCaches (l : PresetLoader.t) : PresetLoader.t :=
  set_audioCache (LRU.clear (PresetLoader.audioCache l))
    (set_presetCache (LRU.clear (PresetLoader.presetCache l)) l).

(* ================================================================== *)
(** * Preloading *)
(* ================================================================== *)

(** [await Promise.all(xs.map(f))] where the calls of [f] suspend more
    than once: the calls are run one after another, each to its end (a
    rejection stops no other call), and the first rejection in that
    order is the rejection of the whole. *)
Fixpoint run_all {A B} (f : A -> M B) (xs : list A) (w : World)
  : list (A * result B) * World :=
  match xs with
  | [] => ([], w)
  | x :: xs' =>
      let (r, w1) := f x w in
      let (rest, w2) := run_all f xs' w1 in
      ((x, r) :: rest, w2)
  end.

Definition promise_all {A B} (f : A -> M B) (xs : list A) : M unit :=
  fun w =>
    let (rs, w') := run_all f xs w in
    match first_rejection rs with
    | Some e => (Err e, w')
    | None => (Ok tt, w')
    end.

(** The libraries named by the qualified preset names:
    [librariesToLoad] *)
Definition librariesToLoad (presetNames : list string) : list string :=
  fold_left
    (fun s name =>
       let slashIdx := Str.indexOf name "/" in
       if (slashIdx >? 0)%Z then set_add (Str.take (Z.to_nat slashIdx) name) s
       else s)
    presetNames [].

Section Preload.
Variable net : Network.
Variable sched : list nat.

(** The body of the [try] of [preloadAll] for one name *)
Definition preload_body (name : string) : M unit :=
  preset <- loadPreset net name ;;
  (* Pre-decode sampler zones if the preset has a sampler config *)
  match node preset with
  | Some n =>
      if String.eqb (node_type n) "sampler" then
        match config n with
        | Some cfg =>
            l <- get_this ;;
            match search (SearchOptions.mk None None None None (Some name)) l with
            | entry :: _ =>
                let libraryName := findLibraryForEntry entry l in
                let presetUrl :=
                  resolvePresetUrl (PresetEntry.path entry) libraryName l in
                decodeSamplerZones net sched cfg (Some presetUrl) ;;;
                ret tt
            | [] => ret tt
            end
        | None => ret tt
        end
      else ret tt
  | None => ret tt
  end.

(** [try { ... } catch (err) { console.warn(...) }] *)
Definition preload_one (name : string) : M unit :=
  try_catch (preload_body name) (fun err => console_warn name err).

(** [preloadAll(presetNames)] *)
Definition preloadAll (presetNames : list string) : M unit :=
  (* Ensure root index is loaded first *)
  loadRootIndex net ;;;
  (* Load required libraries in parallel *)
  promise_all (enableLibrary net) (librariesToLoad presetNames) ;;;
  (* Now load each preset *)
  promise_all preload_one presetNames ;;;
  ret tt.

End Preload.

(* ================================================================== *)
(** * The statements of the specification *)
(* ================================================================== *)

(** The definitions of this section follow the words of the
    specification; the theorems compare them with the code above. *)

(** A sub-index entry [e] is the first one of [entries] that satisfies
    [P]: what [find] returns. *)
Definition first_sub (P : SubIndexEntry.t -> Prop) (entries : list IndexEntry)
  (e : SubIndexEntry.t) : Prop :=
  exists before after,
    entries = (before ++ Index e :: after)%list
    /\ P e
    /\ forall e', In (Index e') before -> ~ P e'.

Definition no_sub (P : SubIndexEntry.t -> Prop) (entries : list IndexEntry)
  : Prop :=
  forall e', In (Index e') entries -> ~ P e'.

(** Tier 1: exact string match on [entry.name]. *)
Definition tier_exact (name : string) (e : SubIndexEntry.t) : Prop :=
  SubIndexEntry.name e = name.

(** Tier 2: case-insensitive match after replacing underscores with
    spaces in both names. *)
Definition tier_normalized (name : string) (e : SubIndexEntry.t) : Prop :=
  Str.toLowerCase (Str.replace_underscores (SubIndexEntry.name e)) =
  Str.toLowerCase (Str.replace_underscores name).

(** Tier 3: [entry.path] starts with ["{name}/"]. *)
Definition tier_prefix (name : string) (e : SubIndexEntry.t) : Prop :=
  exists rest, SubIndexEntry.path e = name ++ "/" ++ rest.

(** The root index is flat and is itself the library [name]. *)
Definition flat_library (name : string) (root : PresetIndex.t) : Prop :=
  (forall e, ~ In (Index e) (PresetIndex.entries root))
  /\ PresetIndex.name root = name.

(** The test [loadLibrary] makes for it. *)
Definition flat_test (name : string) (root : PresetIndex.t) : bool :=
  negb (existsb is_index (PresetIndex.entries root))
  && String.eqb (PresetIndex.name root) name.

(** The map of loaded libraries after [loadLibrary] has stored a
    library under the requested name and under its canonical name. *)
Definition registered_as (name canonical : string) (loaded : Obj LoadedLibrary)
  (m : JsMap.t string (Obj LoadedLibrary)) : JsMap.t string (Obj LoadedLibrary) :=
  if String.eqb canonical name then JsMap.set string_dec m name loaded
  else JsMap.set string_dec (JsMap.set string_dec m name loaded) canonical loaded.

(** [needle] occurs in [s]. *)
Definition substring_of (needle s : string) : Prop :=
  exists before after, s = before ++ needle ++ after.

(** The filters of [search], each one binding only when it is supplied:
    an absent option, an empty library or name, and an empty tag list
    supply no filter. *)
Definition satisfies_filters (o : SearchOptions.t) (libraryName : string)
  (e : PresetEntry.t) : Prop :=
  (forall library,
      SearchOptions.library o = Some library -> library <> "" ->
      Str.toLowerCase libraryName = Str.toLowerCase library)
  /\ (forall category,
         SearchOptions.category o = Some category ->
         PresetEntry.category e = category)
  /\ (forall gmProgram,
         SearchOptions.gmProgram o = Some gmProgram ->
         PresetEntry.gmProgram e = Some gmProgram)
  /\ (forall tags,
         SearchOptions.tags o = Some tags -> tags <> [] ->
         exists t q,
           In t (PresetEntry.tags e) /\ In q tags
           /\ Str.toLowerCase t = Str.toLowerCase q)
  /\ (forall name,
         SearchOptions.name o = Some name ->
         substring_of (Str.toLowerCase name)
           (Str.toLowerCase (PresetEntry.name e))).

(** The same conjunction as a test, to filter with. *)
Definition matches_filters (o : SearchOptions.t) (r : string * PresetEntry.t)
  : bool :=
  match SearchOptions.library o with
  | Some library =>
      negb (truthy library)
      || String.eqb (Str.toLowerCase (fst r)) (Str.toLowerCase library)
  | None => true
  end
  && match SearchOptions.category o with
     | Some category => PresetCategory_eqb (PresetEntry.category (snd r)) category
     | None => true
     end
  && match SearchOptions.gmProgram o with
     | Some gmProgram => option_Z_eqb (PresetEntry.gmProgram (snd r)) gmProgram
     | None => true
     end
  && match SearchOptions.tags o with
     | Some [] => true
     | Some tags =>
         existsb (fun t =>
                    existsb (fun q => String.eqb (Str.toLowerCase t)
                                        (Str.toLowerCase q)) tags)
           (PresetEntry.tags (snd r))
     | None => true
     end
  && match SearchOptions.name o with
     | Some name =>
         Str.includes (Str.toLowerCase (PresetEntry.name (snd r)))
           (Str.toLowerCase name)
     | None => true
     end.

(** The preset entries of the library enabled under [libraryName]. *)
Definition entries_of_enabled (l : PresetLoader.t) (libraryName : string)
  : list PresetEntry.t :=
  match JsMap.get string_dec (PresetLoader.loadedLibraries l) libraryName with
  | Some lib => presets_of (PresetIndex.entries (val (index (val lib))))
  | None => []
  end.

(** The entries that a filter keeps among those of the libraries
    enabled under [names], library by library. *)
Definition kept_entries (l : PresetLoader.t) (keep : string * PresetEntry.t -> bool)
  (names : list string) : list PresetEntry.t :=
  map snd
    (filter keep
       (flat_map (fun n => map (pair n) (entries_of_enabled l n)) names)).

(** Descending order of score. *)
Definition descending {A : Type} (a b : A * Q) : Prop := (snd b <= snd a)%Q.

(** A word of the query matches an entry when it is found in the name
    or in a tag. *)
Definition word_matches (e : PresetEntry.t) (w : string) : Prop :=
  substring_of w (Str.toLowerCase (PresetEntry.name e))
  \/ exists t, In t (PresetEntry.tags e) /\ substring_of w (Str.toLowerCase t).

Definition word_matchesb (e : PresetEntry.t) (w : string) : bool :=
  Str.includes (Str.toLowerCase (PresetEntry.name e)) w
  || existsb (fun t => Str.includes (Str.toLowerCase t) w) (PresetEntry.tags e).

(** Equality of preset entries is decidable. *)
Definition PresetEntry_eq_dec (a b : PresetEntry.t) : {a = b} + {a <> b}.
Proof.
  repeat decide equality; apply Ascii.ascii_dec.
Defined.

(* ================================================================== *)
(** * A small catalog, to run the loader on *)
(* ================================================================== *)

Module Example.

Definition base : string := "https://cdn.example/presets".

Definition entry (name path : string) (c : PresetCategory) (tags : list string)
  : PresetEntry.t :=
  PresetEntry.mk name path c tags None None.

Definition sub (name path : string) : SubIndexEntry.t :=
  SubIndexEntry.mk name path None None None.

(** Four IEEE-754 singles, 1.0 2.0 3.0 4.0, little-endian, in base64. *)
Definition pcm4 : string := "AACAPwAAAEAAAEBAAACAQA==".

Definition grandPiano := entry "Grand Piano" "grand.json" sampler ["keys"].
Definition acousticGrand :=
  entry "Acoustic Grand Piano" "acoustic.json" sampler ["keys"].
Definition rhodes := entry "Rhodes" "rhodes.json" synth ["piano"; "electric"].
Definition violin := entry "Violin" "violin.json" sampler ["strings"].

Definition libA : PresetIndex.t :=
  PresetIndex.mk "LibA" None
    [Preset (entry "X" "x.json" sampler ["piano"]);
     Preset (entry "Y" "y.json" synth [])].

Definition fluid : PresetIndex.t :=
  PresetIndex.mk "FluidR3 GM" None
    [Preset acousticGrand; Preset rhodes; Preset grandPiano; Preset violin].

(** The root index, listing the second library under a given display
    name. *)
Definition root (fluidName : string) : PresetIndex.t :=
  PresetIndex.mk "root" None
    [Index (sub "LibA" "LibA/index.json");
     Index (sub fluidName "FluidR3_GM/index.json")].

(** A flat catalog: presets directly in the root. *)
Definition flatRoot : PresetIndex.t :=
  PresetIndex.mk "Flat" None [Preset violin].

Definition descX : PresetDescriptor :=
  mkDescriptor
    (Some (mkNode "sampler"
             (Some (mkSampler [mkZone 0 (inlinePcm pcm4 22050)])))).

Definition descY : PresetDescriptor :=
  mkDescriptor (Some (mkNode "oscillator" None)).

Definition json_index_response (i : PresetIndex.t) : FetchOutcome :=
  Responds (mkResponse 200 (Some i) None []).

Definition json_preset_response (p : PresetDescriptor) : FetchOutcome :=
  Responds (mkResponse 200 None (Some p) []).

Definition not_found : FetchOutcome := Responds (mkResponse 404 None None []).

(** The server: a root index and the documents below it. *)
Definition net_with (rootIndex : PresetIndex.t) : Network :=
  fun url =>
    if String.eqb url (base ++ "/index.json") then json_index_response rootIndex
    else if String.eqb url (base ++ "/LibA/index.json") then json_index_response libA
    else if String.eqb url (base ++ "/FluidR3_GM/index.json")
    then json_index_response fluid
    else if String.eqb url (base ++ "/LibA/x.json") then json_preset_response descX
    else if String.eqb url (base ++ "/LibA/y.json") then json_preset_response descY
    else if String.eqb url (base ++ "/LibA/ok.wav")
    then Responds (mkResponse 200 None None [Byte.x52; Byte.x49])
    else not_found.

Definition net : Network := net_with (root "FluidR3 GM").

(** A network that answers nothing. *)
Definition offline : Network := fun _ => Rejects.

(** An audio context whose decoder accepts any non-empty input. *)
Definition ctx : AudioContext :=
  mkContext
    (fun b => match b with
              | [] => Err (EncodingError "empty")
              | _ => Ok (AudioBuffer.mk 2 1 44100 [[0%N]; [0%N]])
              end)
    (fun n len rate => (0 <? len)%nat && (8000 <=? rate)%Z && (rate <=? 96000)%Z).

Definition fresh : World := newWorld (setAudioContext ctx (newLoader base None None)).

(** Three zones: inline samples, a file the server has, and one it has
    not. *)
Definition zonePcm : SampleZone := mkZone 0 (inlinePcm pcm4 22050).
Definition zoneFile : SampleZone := mkZone 1 (external (Some "ok.wav") None None).
Definition zoneMissing : SampleZone :=
  mkZone 2 (external None (Some "missing.wav") None).

Definition descXUrl : string := "https://cdn.example/presets/LibA/x.json".

(** The engine after [enableLibrary("FluidR3 GM")]. *)
Definition withFluid : World := snd (enableLibrary net "FluidR3 GM" fresh).

(** ... and then [enableLibrary("LibA")]. *)
Definition withBoth : World := snd (enableLibrary net "LibA" withFluid).

End Example.

(* ================================================================== *)
(** * Facts about ES maps *)
(* ================================================================== *)

Unset Implicit Arguments.
Local Open Scope list_scope.

Section JsMapFacts.
Variables K V : Type.
Variable K_eq_dec : forall x y : K, {x = y} + {x <> y}.

Local Abbreviation get := (JsMap.get K_eq_dec).
Local Abbreviation has := (JsMap.has K_eq_dec).
Local Abbreviation set := (JsMap.set K_eq_dec).
Local Abbreviation delete := (JsMap.delete K_eq_dec).
Local Abbreviation keys := (@JsMap.keys K V).
Local Abbreviation wf := (@JsMap.wf K V).
Local Abbreviation size := (@JsMap.size K V).
Implicit Types m : JsMap.t K V.


Lemma has_In : forall m k, has m k = true <-> In k (keys m).
Proof.
  induction m as [|[k' v'] m IH]; simpl; intros k.
  - split; [discriminate | tauto].
  - destruct (K_eq_dec k' k) as [->|Hne].
    + split; auto.
    + rewrite IH. split; [auto | intros [H|H]; [contradiction | exact H]].
Qed.

Lemma has_false_notin : forall m k, has m k = false <-> ~ In k (keys m).
Proof.
  intros m k. rewrite <- has_In. destruct (has m k); split; intros; congruence.
Qed.

Lemma has_get : forall m k, has m k = true <-> exists v, get m k = Some v.
Proof.
  induction m as [|[k' v'] m IH]; simpl; intros k.
  - split; [discriminate | intros [v H]; discriminate].
  - destruct (K_eq_dec k' k); [split; eauto | apply IH].
Qed.


Lemma set_fresh : forall m k v, has m k = false -> set m k v = m ++ [(k, v)].
Proof.
  induction m as [|[k' v'] m IH]; simpl; intros k v H; auto.
  destruct (K_eq_dec k' k); [discriminate|]. now rewrite IH.
Qed.

Lemma delete_fresh : forall m k, has m k = false -> delete m k = m.
Proof.
  induction m as [|[k' v'] m IH]; simpl; intros k H; auto.
  destruct (K_eq_dec k' k); [discriminate|]. now rewrite IH.
Qed.

Lemma keys_delete_incl : forall m k x, In x (keys (delete m k)) -> In x (keys m).
Proof.
  induction m as [|[k' v'] m IH]; simpl; intros k x H; auto.
  destruct (K_eq_dec k' k); simpl in *; [auto|].
  destruct H; eauto.
Qed.

Lemma wf_delete : forall m k, wf m -> wf (delete m k).
Proof.
  unfold JsMap.wf. induction m as [|[k' v'] m IH]; simpl; intros k H; auto.
  inversion H; subst.
  destruct (K_eq_dec k' k); simpl; auto.
  constructor; auto. intros Hin. apply keys_delete_incl in Hin. auto.
Qed.

Lemma has_delete_same : forall m k, wf m -> has (delete m k) k = false.
Proof.
  unfold JsMap.wf. induction m as [|[k' v'] m IH]; simpl; intros k H; auto.
  inversion H; subst.
  destruct (K_eq_dec k' k) as [->|Hne]; simpl.
  - now apply has_false_notin.
  - destruct (K_eq_dec k' k); [contradiction | auto].
Qed.

Lemma has_delete_other :
  forall m k x, x <> k -> has (delete m k) x = has m x.
Proof.
  induction m as [|[k' v'] m IH]; simpl; intros k x Hne; auto.
  destruct (K_eq_dec k' k) as [->|Hk]; simpl.
  - destruct (K_eq_dec k x); [congruence | reflexivity].
  - destruct (K_eq_dec k' x); auto.
Qed.

Lemma get_delete_other :
  forall m k x, x <> k -> get (delete m k) x = get m x.
Proof.
  induction m as [|[k' v'] m IH]; simpl; intros k x Hne; auto.
  destruct (K_eq_dec k' k) as [->|Hk]; simpl.
  - destruct (K_eq_dec k x); [congruence | reflexivity].
  - destruct (K_eq_dec k' x); auto.
Qed.

Lemma size_delete_present :
  forall m k, has m k = true -> S (size (delete m k)) = size m.
Proof.
  unfold JsMap.size. induction m as [|[k' v'] m IH]; simpl; intros k H.
  - discriminate.
  - destruct (K_eq_dec k' k); simpl; auto.
Qed.

Lemma keys_app : forall m1 m2, keys (m1 ++ m2) = keys m1 ++ keys m2.
Proof. intros. unfold JsMap.keys. apply map_app. Qed.

Lemma has_app : forall m1 m2 k, has (m1 ++ m2) k = has m1 k || has m2 k.
Proof.
  induction m1 as [|[k' v'] m1 IH]; simpl; intros; auto.
  destruct (K_eq_dec k' k); auto.
Qed.

Lemma get_app_fresh :
  forall m1 m2 k, has m1 k = false -> get (m1 ++ m2) k = get m2 k.
Proof.
  induction m1 as [|[k' v'] m1 IH]; simpl; intros m2 k H; auto.
  destruct (K_eq_dec k' k); [discriminate | auto].
Qed.

Lemma wf_snoc : forall m k v, wf m -> has m k = false -> wf (m ++ [(k, v)]).
Proof.
  unfold JsMap.wf. intros m k v Hwf Hk. rewrite keys_app. simpl.
  apply has_false_notin in Hk.
  apply NoDup_app; auto.
  - constructor; [intros [] | constructor].
  - intros x Hx [<-|[]]. contradiction.
Qed.

Lemma wf_tl : forall m, wf m -> wf (tl m).
Proof.
  unfold JsMap.wf. intros [|[k v] m]; simpl; auto. intros H. now inversion H.
Qed.

Lemma get_set_same : forall m k v, get (set m k v) k = Some v.
Proof.
  induction m as [|[k' v'] m IH]; simpl; intros k v.
  - destruct (K_eq_dec k k); congruence.
  - destruct (K_eq_dec k' k) as [->|Hne]; simpl.
    + destruct (K_eq_dec k k); congruence.
    + destruct (K_eq_dec k' k); [contradiction | apply IH].
Qed.

Lemma get_set_other :
  forall m k v x, x <> k -> get (set m k v) x = get m x.
Proof.
  induction m as [|[k' v'] m IH]; simpl; intros k v x Hne.
  - destruct (K_eq_dec k x); congruence.
  - destruct (K_eq_dec k' k) as [->|Hk]; simpl.
    + destruct (K_eq_dec k x); congruence.
    + destruct (K_eq_dec k' x); auto.
Qed.

Lemma has_set_same : forall m k v, has (set m k v) k = true.
Proof.
  intros. apply has_get. eexists. apply get_set_same.
Qed.

Lemma has_set_other :
  forall m k v x, x <> k -> has (set m k v) x = has m x.
Proof.
  induction m as [|[k' v'] m IH]; simpl; intros k v x Hne.
  - destruct (K_eq_dec k x); congruence.
  - destruct (K_eq_dec k' k) as [->|Hk]; simpl.
    + destruct (K_eq_dec k x); congruence.
    + destruct (K_eq_dec k' x); auto.
Qed.

Lemma keys_set_present :
  forall m k v, has m k = true -> keys (set m k v) = keys m.
Proof.
  induction m as [|[k' v'] m IH]; simpl; intros k v H.
  - discriminate.
  - destruct (K_eq_dec k' k); simpl; auto. f_equal. auto.
Qed.

Lemma wf_set : forall m k v, wf m -> wf (set m k v).
Proof.
  intros m k v H. destruct (has m k) eqn:Hk.
  - unfold JsMap.wf. now rewrite keys_set_present.
  - rewrite set_fresh by assumption. now apply wf_snoc.
Qed.


End JsMapFacts.

(* ================================================================== *)
(** * The LRU cache *)
(* ================================================================== *)

Section LRUFacts.
Variables K V : Type.
Variable K_eq_dec : forall x y : K, {x = y} + {x <> y}.

Implicit Types c : LRU.LRUCache K V.

Lemma lru_get_hit :
  forall c k v,
    JsMap.wf (LRU.cache c) ->
    JsMap.get K_eq_dec (LRU.cache c) k = Some v ->
    LRU.get K_eq_dec c k =
    (Some v, LRU.mk (LRU.maxSize c)
               (JsMap.delete K_eq_dec (LRU.cache c) k ++ [(k, v)])).
Proof.
  intros c k v Hwf Hget. unfold LRU.get. rewrite Hget.
  rewrite set_fresh; [reflexivity|].
  now apply has_delete_same.
Qed.

Lemma lru_get_miss :
  forall c k,
    JsMap.get K_eq_dec (LRU.cache c) k = None -> LRU.get K_eq_dec c k = (None, c).
Proof. intros c k H. unfold LRU.get. now rewrite H. Qed.

Lemma lru_maxSize_get :
  forall c k, LRU.maxSize (snd (LRU.get K_eq_dec c k)) = LRU.maxSize c.
Proof.
  intros c k. unfold LRU.get.
  destruct (JsMap.get K_eq_dec (LRU.cache c) k); reflexivity.
Qed.



Lemma lru_maxSize_set_all :
  forall kvs c, LRU.maxSize (LRU.set_all K_eq_dec kvs c) = LRU.maxSize c.
Proof.
  induction kvs as [|kv kvs IH]; intros c; simpl; auto.
  unfold LRU.set_all in *. simpl. now rewrite IH.
Qed.

(** What [set] does to the underlying map, case by case. *)
Lemma lru_set_present :
  forall c k v,
    JsMap.wf (LRU.cache c) ->
    JsMap.has K_eq_dec (LRU.cache c) k = true ->
    LRU.cache (LRU.set K_eq_dec c k v) =
    JsMap.delete K_eq_dec (LRU.cache c) k ++ [(k, v)].
Proof.
  intros c k v Hwf Hk. unfold LRU.set. rewrite Hk. simpl.
  apply set_fresh. now apply has_delete_same.
Qed.

Lemma lru_set_fresh :
  forall c k v,
    (1 <= LRU.maxSize c)%Z ->
    JsMap.wf (LRU.cache c) ->
    JsMap.has K_eq_dec (LRU.cache c) k = false ->
    LRU.cache (LRU.set K_eq_dec c k v) =
    if (Z.of_nat (LRU.size c) >=? LRU.maxSize c)%Z
    then tl (LRU.cache c) ++ [(k, v)]
    else LRU.cache c ++ [(k, v)].
Proof.
  intros c k v Hn Hwf Hk. unfold LRU.set, LRU.size. rewrite Hk.
  destruct (Z.of_nat (JsMap.size (LRU.cache c)) >=? LRU.maxSize c)%Z eqn:Hfull;
    simpl.
  - destruct (LRU.cache c) as [|[k0 v0] rest] eqn:Hc.
    + simpl in Hfull. lia.
    + simpl. destruct (K_eq_dec k0 k0) as [_|Hne]; [|contradiction].
      apply set_fresh. simpl in Hk.
      destruct (K_eq_dec k0 k); [discriminate | exact Hk].
  - now apply set_fresh.
Qed.

Lemma lru_inv_set :
  forall c k v,
    (1 <= LRU.maxSize c)%Z -> LRU.inv c -> LRU.inv (LRU.set K_eq_dec c k v).
Proof.
  intros c k v Hn [Hwf Hsz]. unfold LRU.inv, LRU.size in *.
  destruct (JsMap.has K_eq_dec (LRU.cache c) k) eqn:Hk.
  - rewrite lru_set_present by assumption. split.
    + apply (wf_snoc _ _ K_eq_dec); [now apply wf_delete | now apply has_delete_same].
    + simpl. pose proof (size_delete_present _ _ K_eq_dec _ _ Hk) as Hs.
      unfold JsMap.size in *. rewrite length_app. simpl. lia.
  - rewrite lru_set_fresh by assumption. unfold LRU.size.
    destruct (Z.of_nat (JsMap.size (LRU.cache c)) >=? LRU.maxSize c)%Z eqn:Hfull.
    + split.
      * apply (wf_snoc _ _ K_eq_dec); [now apply wf_tl|].
        destruct (LRU.cache c) as [|[k0 v0] rest]; simpl in *; auto.
        destruct (K_eq_dec k0 k); [discriminate | exact Hk].
      * simpl. unfold JsMap.size in *. rewrite length_app. simpl.
        destruct (LRU.cache c); simpl in *; lia.
    + split; [now apply (wf_snoc _ _ K_eq_dec)|].
      simpl. unfold JsMap.size in *. rewrite length_app. simpl. lia.
Qed.

Lemma lru_inv_get :
  forall c k, LRU.inv c -> LRU.inv (snd (LRU.get K_eq_dec c k)).
Proof.
  intros c k [Hwf Hsz]. unfold LRU.inv, LRU.size in *.
  destruct (JsMap.get K_eq_dec (LRU.cache c) k) as [v|] eqn:Hget.
  - rewrite (lru_get_hit _ _ _ Hwf Hget). simpl.
    assert (Hk : JsMap.has K_eq_dec (LRU.cache c) k = true)
      by (apply has_get; eauto).
    split.
    + apply (wf_snoc _ _ K_eq_dec); [now apply wf_delete | now apply has_delete_same].
    + pose proof (size_delete_present _ _ K_eq_dec _ _ Hk) as Hs.
      unfold JsMap.size in *. rewrite length_app. simpl. lia.
  - rewrite (lru_get_miss _ _ Hget). simpl. auto.
Qed.




(** One insertion of a new key, as a window over the history. *)
Lemma lru_set_fresh_window :
  forall c k v,
    (1 <= LRU.maxSize c)%Z -> LRU.inv c ->
    JsMap.has K_eq_dec (LRU.cache c) k = false ->
    LRU.cache (LRU.set K_eq_dec c k v) =
    skipn (S (LRU.size c) - Z.to_nat (LRU.maxSize c)) (LRU.cache c ++ [(k, v)]).
Proof.
  intros c k v Hn [Hwf Hsz] Hk. rewrite lru_set_fresh by assumption.
  unfold LRU.size, JsMap.size in *.
  destruct (Z.of_nat (List.length (LRU.cache c)) >=? LRU.maxSize c)%Z eqn:Hfull.
  - replace (S (List.length (LRU.cache c)) - Z.to_nat (LRU.maxSize c))%nat
      with 1%nat by lia.
    destruct (LRU.cache c); simpl in *; [lia | reflexivity].
  - replace (S (List.length (LRU.cache c)) - Z.to_nat (LRU.maxSize c))%nat
      with 0%nat by lia.
    reflexivity.
Qed.

(** Insertions of new, pairwise distinct keys keep the last [maxSize]
    bindings of the history. *)
Lemma lru_set_all_window :
  forall kvs c,
    (1 <= LRU.maxSize c)%Z -> LRU.inv c ->
    NoDup (LRU.keys c ++ map fst kvs) ->
    LRU.cache (LRU.set_all K_eq_dec kvs c) =
    skipn (List.length (LRU.cache c ++ kvs) - Z.to_nat (LRU.maxSize c))
      (LRU.cache c ++ kvs).
Proof.
  induction kvs as [|[k v] kvs IH]; intros c Hn Hinv Hnd.
  - simpl. rewrite app_nil_r. destruct Hinv as [_ Hsz].
    unfold LRU.size, JsMap.size in Hsz.
    replace (List.length (LRU.cache c) - Z.to_nat (LRU.maxSize c))%nat
      with 0%nat by lia.
    reflexivity.
  - unfold LRU.set_all in *. simpl.
    assert (Hk : JsMap.has K_eq_dec (LRU.cache c) k = false).
    { apply has_false_notin. intros Hin.
      simpl in Hnd. apply NoDup_remove_2 in Hnd. apply Hnd.
      apply in_or_app. now left. }
    pose proof (lru_set_fresh_window c k v Hn Hinv Hk) as Hwin.
    pose proof (lru_inv_set c k v Hn Hinv) as Hinv'.
    set (c' := LRU.set K_eq_dec c k v) in *.
    assert (Hmax : LRU.maxSize c' = LRU.maxSize c) by reflexivity.
    rewrite IH; [| now rewrite Hmax | exact Hinv' |].
    + rewrite Hmax, Hwin.
      destruct Hinv as [_ Hsz]. unfold LRU.size, JsMap.size in *.
      set (n := Z.to_nat (LRU.maxSize c)) in *.
      set (d := (S (List.length (LRU.cache c)) - n)%nat).
      assert (Hd : (d <= List.length (LRU.cache c ++ [(k, v)]))%nat)
        by (rewrite length_app; simpl; lia).
      assert (Happ : skipn d (LRU.cache c ++ [(k, v)]) ++ kvs =
                     skipn d (LRU.cache c ++ (k, v) :: kvs)).
      { replace (LRU.cache c ++ (k, v) :: kvs)
          with ((LRU.cache c ++ [(k, v)]) ++ kvs)
          by (rewrite <- app_assoc; reflexivity).
        rewrite (skipn_app d (LRU.cache c ++ [(k, v)]) kvs).
        replace (d - List.length (LRU.cache c ++ [(k, v)]))%nat with 0%nat by lia.
        reflexivity. }
      rewrite Happ, skipn_skipn. f_equal.
      rewrite length_skipn, !length_app. simpl.
      rewrite length_app in Hd. simpl in Hd. lia.
    + (* the keys of the new cache are among the old ones and [k] *)
      unfold LRU.keys, JsMap.keys. rewrite Hwin.
      unfold LRU.keys, JsMap.keys in Hnd. simpl in Hnd.
      assert (Hnd' : NoDup (map fst (LRU.cache c ++ [(k, v)]) ++ map fst kvs)).
      { rewrite map_app, <- app_assoc. exact Hnd. }
      remember (S (LRU.size c) - Z.to_nat (LRU.maxSize c))%nat as d.
      rewrite <- (firstn_skipn d (LRU.cache c ++ [(k, v)])) in Hnd'.
      rewrite map_app, <- app_assoc in Hnd'.
      now apply NoDup_app_remove_l in Hnd'.
Qed.

End LRUFacts.

(** ** Capacity and eviction *)

Lemma keys_skipn_incl :
  forall (K V : Type) d (m : JsMap.t K V) x,
    In x (JsMap.keys (skipn d m)) -> In x (JsMap.keys m).
Proof.
  intros K V d m x H. unfold JsMap.keys in *.
  rewrite <- (firstn_skipn d m), map_app. apply in_or_app. now right.
Qed.




(** C3, as amended: [get] on a present key returns its value, leaves
    the size unchanged and moves the key to the most recently used
    end; the key then survives the insertion of any [m] further
    distinct new keys as long as [m < maxSize], whatever its insertion
    rank was, and it is evicted once [m >= maxSize]. *)
Theorem lru_get_promotes_and_protects :
  forall (K V : Type) (K_eq_dec : forall x y : K, {x = y} + {x <> y})
         (c : LRU.LRUCache K V) (k : K) (v : V),
    LRU.inv c ->
    JsMap.get K_eq_dec (LRU.cache c) k = Some v ->
    let c1 := snd (LRU.get K_eq_dec c k) in
    fst (LRU.get K_eq_dec c k) = Some v
    /\ LRU.size c1 = LRU.size c
    /\ LRU.cache c1 = JsMap.delete K_eq_dec (LRU.cache c) k ++ [(k, v)]
    /\ (forall kvs,
           NoDup (map fst kvs) ->
           (forall x, In x (map fst kvs) -> LRU.has K_eq_dec c x = false) ->
           ((Z.of_nat (List.length kvs) < LRU.maxSize c)%Z ->
            LRU.has K_eq_dec (LRU.set_all K_eq_dec kvs c1) k = true)
           /\ ((LRU.maxSize c <= Z.of_nat (List.length kvs))%Z ->
               LRU.has K_eq_dec (LRU.set_all K_eq_dec kvs c1) k = false)).
Proof.
  intros K V K_eq_dec c k v Hinv Hget c1.
  pose proof Hinv as [Hwf Hsz].
  assert (Hk : JsMap.has K_eq_dec (LRU.cache c) k = true)
    by (apply has_get; eauto).
  pose proof (size_delete_present _ _ K_eq_dec _ _ Hk) as Hdel.
  assert (Hc1 : LRU.cache c1 = JsMap.delete K_eq_dec (LRU.cache c) k ++ [(k, v)]).
  { subst c1. now rewrite (lru_get_hit _ _ K_eq_dec c k v Hwf Hget). }
  assert (Hmax1 : LRU.maxSize c1 = LRU.maxSize c)
    by (subst c1; apply lru_maxSize_get).
  assert (Hsize1 : LRU.size c1 = LRU.size c).
  { unfold LRU.size, JsMap.size in *. rewrite Hc1, length_app. simpl. lia. }
  assert (Hinv1 : LRU.inv c1) by (subst c1; now apply lru_inv_get).
  assert (Hn : (1 <= LRU.maxSize c)%Z).
  { unfold LRU.size, JsMap.size in *. lia. }
  split; [|split; [exact Hsize1 | split; [exact Hc1|]]].
  { now rewrite (lru_get_hit _ _ K_eq_dec c k v Hwf Hget). }
  intros kvs Hnd Hfresh.
  set (D := JsMap.delete K_eq_dec (LRU.cache c) k) in *.
  assert (Hkeys : NoDup (LRU.keys c1 ++ map fst kvs)).
  { apply NoDup_app; [apply Hinv1 | exact Hnd |].
    intros x Hx1 Hx2. apply Hfresh in Hx2.
    apply has_false_notin in Hx2. apply Hx2.
    unfold LRU.keys in Hx1. rewrite Hc1, keys_app in Hx1.
    apply in_app_or in Hx1. destruct Hx1 as [Hx1|[<-|[]]].
    - eapply keys_delete_incl. exact Hx1.
    - now apply has_In in Hk. }
  assert (Hwin := lru_set_all_window _ _ K_eq_dec kvs c1
                    ltac:(lia) Hinv1 Hkeys).
  rewrite Hmax1, Hc1 in Hwin. unfold LRU.has. rewrite Hwin.
  rewrite !length_app. simpl.
  unfold LRU.size, JsMap.size in *.
  set (n := Z.to_nat (LRU.maxSize c)) in *.
  set (d := (List.length D + 1 + List.length kvs - n)%nat).
  rewrite <- app_assoc. simpl.
  split; intros Hm.
  - rewrite (skipn_app d D ((k, v) :: kvs)).
    replace (d - List.length D)%nat with 0%nat by lia.
    rewrite has_app. simpl.
    destruct (K_eq_dec k k); [apply orb_true_r | contradiction].
  - rewrite (skipn_app d D ((k, v) :: kvs)).
    rewrite (skipn_all2 D) by lia. simpl.
    destruct (d - List.length D)%nat as [|d'] eqn:Hd; [lia|]. simpl.
    apply has_false_notin. intros Hin. apply keys_skipn_incl in Hin.
    apply Hfresh in Hin. unfold LRU.has in Hin. congruence.
Qed.

Lemma lru_get_promotes_and_protects_witness :
  let c := LRU.mk 3%Z [("k"%string, 0%nat); ("a"%string, 1%nat); ("b"%string, 2%nat)] in
  LRU.inv c /\
  JsMap.get string_dec (LRU.cache c) "k"%string = Some 0%nat /\
  LRU.has string_dec
    (LRU.set_all string_dec [("x"%string, 7%nat); ("y"%string, 8%nat)]
       (snd (LRU.get string_dec c "k"%string))) "k"%string = true.
Proof.
  intros c.
  assert (Hinv : LRU.inv c).
  { split; simpl; [|lia]. repeat constructor; simpl; intuition discriminate. }
  split; [exact Hinv|]. split; [reflexivity|].
  refine (proj1 (proj2 (proj2 (proj2
            (lru_get_promotes_and_protects string nat string_dec c
               "k"%string 0%nat Hinv eq_refl)))
            [("x"%string, 7%nat); ("y"%string, 8%nat)] _ _) _).
  - repeat constructor; simpl; intuition discriminate.
  - intros x [<-|[<-|[]]]; reflexivity.
  - simpl. lia.
Defined.

(** C3 as stated fails: in a cache of capacity 2, the key that was
    just read is evicted by the insertion of 2 further new keys. *)
Lemma lru_read_key_evicted_after_n_inserts :
  let c := LRU.set_all string_dec [("a"%string, 1%nat); ("k"%string, 2%nat)]
             (LRU.new string nat 2) in
  let c1 := snd (LRU.get string_dec c "k"%string) in
  fst (LRU.get string_dec c "k"%string) = Some 2%nat
  /\ LRU.keys c1 = ["a"%string; "k"%string]
  /\ LRU.has string_dec
       (LRU.set_all string_dec [("x"%string, 3%nat); ("y"%string, 4%nat)] c1)
       "k"%string = false.
Proof.
  repeat split; reflexivity.
Qed.

(* ================================================================== *)
(** * Strings *)
(* ================================================================== *)

Lemma prefix_spec :
  forall p s, String.prefix p s = true <-> exists rest, s = (p ++ rest)%string.
Proof.
  induction p as [|c p IH]; intros s.
  - destruct s; simpl; split; intros _; eauto.
  - destruct s as [|d s]; simpl.
    + split; [discriminate | intros [rest H]; discriminate].
    + destruct (ascii_dec c d) as [->|Hne].
      * rewrite IH. split; intros [rest H]; exists rest; congruence.
      * split; [discriminate | intros [rest H]; congruence].
Qed.

Lemma string_app_assoc :
  forall a b c : string, ((a ++ b) ++ c = a ++ (b ++ c))%string.
Proof.
  induction a as [|x a IH]; intros b c; simpl; [reflexivity | now rewrite IH].
Qed.

Lemma string_app_nil_r : forall a : string, (a ++ "" = a)%string.
Proof.
  induction a as [|x a IH]; simpl; [reflexivity | now rewrite IH].
Qed.

Lemma startsWith_spec :
  forall s p, Str.startsWith s p = true <-> exists rest, s = (p ++ rest)%string.
Proof. intros. apply prefix_spec. Qed.

Lemma includes_spec :
  forall s needle, Str.includes s needle = true <-> substring_of needle s.
Proof.
  unfold substring_of. induction s as [|c s IH]; intros needle.
  - change (Str.includes EmptyString needle)
      with (String.prefix needle EmptyString || false).
    rewrite orb_false_r, prefix_spec. split.
    + intros [rest H]. exists EmptyString, rest. exact H.
    + intros [[|d before] [after H]]; simpl in H; [eauto | discriminate].
  - change (Str.includes (String c s) needle)
      with (String.prefix needle (String c s) || Str.includes s needle).
    rewrite orb_true_iff, prefix_spec, IH. split.
    + intros [[rest H]|[before [after H]]].
      * exists EmptyString, rest. exact H.
      * exists (String c before), after. simpl. now rewrite H.
    + intros [[|d before] [after H]]; simpl in H.
      * left. eauto.
      * right. exists before, after. congruence.
Qed.

Lemma includes_empty : forall s, Str.includes s EmptyString = true.
Proof.
  intros s. apply includes_spec. exists EmptyString, s. reflexivity.
Qed.

Lemma truthy_spec : forall s, truthy s = true <-> s <> EmptyString.
Proof.
  intros s. unfold truthy. rewrite negb_true_iff.
  destruct (String.eqb_spec s EmptyString); split; congruence.
Qed.

(* ================================================================== *)
(** * Resolving a library name *)
(* ================================================================== *)

Section FindSub.
Variable pb : SubIndexEntry.t -> bool.
Variable P : SubIndexEntry.t -> Prop.
Hypothesis pb_spec : forall e, pb e = true <-> P e.

Lemma find_sub_Some :
  forall entries e, find_sub pb entries = Some e <-> first_sub P entries e.
Proof.
  unfold first_sub. induction entries as [|[x|x] entries IH]; intros e; simpl.
  - split; [discriminate|]. intros [[|? ?] [? [H _]]]; discriminate.
  - destruct (pb x) eqn:Hx.
    + split.
      * intros [= <-]. exists [], entries. simpl. repeat split.
        -- now apply pb_spec.
        -- intros e' [].
      * intros [[|y before] [after [H [HP Hnone]]]]; simpl in H.
        -- congruence.
        -- injection H as <- _. exfalso. apply (Hnone x); [now left|].
           now apply pb_spec.
    + rewrite IH. split.
      * intros [before [after [H [HP Hnone]]]].
        exists (Index x :: before), after. simpl. repeat split; auto.
        -- now rewrite H.
        -- intros e' [[= <-]|Hin]; [|now apply Hnone].
           intros HPx. apply pb_spec in HPx. congruence.
      * intros [[|y before] [after [H [HP Hnone]]]]; simpl in H.
        -- injection H as <- _. apply pb_spec in HP. congruence.
        -- injection H as <- ->. exists before, after. repeat split; auto.
           intros e' Hin. apply Hnone. now right.
  - rewrite IH. split.
    + intros [before [after [H [HP Hnone]]]].
      exists (Preset x :: before), after. simpl. repeat split; auto.
      * now rewrite H.
      * intros e' [Hd|Hin]; [discriminate | now apply Hnone].
    + intros [[|y before] [after [H [HP Hnone]]]]; simpl in H.
      * discriminate.
      * injection H as <- ->. exists before, after. repeat split; auto.
        intros e' Hin. apply Hnone. now right.
Qed.

Lemma find_sub_None :
  forall entries, find_sub pb entries = None <-> no_sub P entries.
Proof.
  unfold no_sub. induction entries as [|[x|x] entries IH]; simpl.
  - split; [intros _ e' [] | reflexivity].
  - destruct (pb x) eqn:Hx.
    + split; [discriminate|]. intros H. exfalso.
      apply (H x); [now left | now apply pb_spec].
    + rewrite IH. split.
      * intros H e' [[= <-]|Hin]; [|now apply H].
        intros HPx. apply pb_spec in HPx. congruence.
      * intros H e' Hin. apply H. now right.
  - rewrite IH. split.
    + intros H e' [Hd|Hin]; [discriminate | now apply H].
    + intros H e' Hin. apply H. now right.
Qed.

End FindSub.

Lemma match_exact_spec :
  forall name e, match_exact name e = true <-> tier_exact name e.
Proof. intros. apply String.eqb_eq. Qed.

Lemma match_normalized_spec :
  forall name e, match_normalized name e = true <-> tier_normalized name e.
Proof. intros. apply String.eqb_eq. Qed.

Lemma match_prefix_spec :
  forall name e, match_prefix name e = true <-> tier_prefix name e.
Proof.
  intros name e. unfold match_prefix, tier_prefix.
  rewrite startsWith_spec.
  split; intros [rest H]; exists rest; rewrite H;
    [apply string_app_assoc | symmetry; apply string_app_assoc].
Qed.

Lemma existsb_is_index :
  forall entries,
    existsb is_index entries = false <-> forall e, ~ In (Index e) entries.
Proof.
  induction entries as [|[x|x] entries IH]; simpl.
  - split; [intros _ e [] | reflexivity].
  - split; [discriminate|]. intros H. exfalso. apply (H x). now left.
  - rewrite IH. split.
    + intros H e [Hd|Hin]; [discriminate | now apply (H e)].
    + intros H e Hin. apply (H e). now right.
Qed.

(** The tiers are tried in order, each over the whole index. *)
Lemma resolveLibEntry_Some :
  forall name entries e,
    resolveLibEntry name entries = Some e <->
    first_sub (tier_exact name) entries e
    \/ (no_sub (tier_exact name) entries
        /\ first_sub (tier_normalized name) entries e)
    \/ (no_sub (tier_exact name) entries
        /\ no_sub (tier_normalized name) entries
        /\ first_sub (tier_prefix name) entries e).
Proof.
  intros name entries e. unfold resolveLibEntry.
  pose proof (find_sub_Some _ _ (match_exact_spec name) entries) as E1.
  pose proof (find_sub_None _ _ (match_exact_spec name) entries) as N1.
  pose proof (find_sub_Some _ _ (match_normalized_spec name) entries) as E2.
  pose proof (find_sub_None _ _ (match_normalized_spec name) entries) as N2.
  pose proof (find_sub_Some _ _ (match_prefix_spec name) entries) as E3.
  destruct (find_sub (match_exact name) entries) as [e1|].
  - split.
    + intros H. left. now apply E1.
    + intros [H|[[H _]|[H _]]].
      * now apply E1.
      * apply N1 in H. discriminate.
      * apply N1 in H. discriminate.
  - destruct (find_sub (match_normalized name) entries) as [e2|].
    + split.
      * intros H. right. left. split; [now apply N1 | now apply E2].
      * intros [H|[[_ H]|[_ [H _]]]].
        -- apply E1 in H. discriminate.
        -- now apply E2.
        -- apply N2 in H. discriminate.
    + split.
      * intros H. right. right.
        split; [now apply N1 | split; [now apply N2 | now apply E3]].
      * intros [H|[[_ H]|[_ [_ H]]]].
        -- apply E1 in H. discriminate.
        -- apply E2 in H. discriminate.
        -- now apply E3.
Qed.

Lemma resolveLibEntry_None :
  forall name entries,
    resolveLibEntry name entries = None <->
    no_sub (tier_exact name) entries
    /\ no_sub (tier_normalized name) entries
    /\ no_sub (tier_prefix name) entries.
Proof.
  intros name entries. unfold resolveLibEntry.
  pose proof (find_sub_None _ _ (match_exact_spec name) entries) as N1.
  pose proof (find_sub_None _ _ (match_normalized_spec name) entries) as N2.
  pose proof (find_sub_None _ _ (match_prefix_spec name) entries) as N3.
  destruct (find_sub (match_exact name) entries).
  - split; [discriminate|]. intros [H _]. apply N1 in H. discriminate.
  - destruct (find_sub (match_normalized name) entries).
    + split; [discriminate|]. intros [_ [H _]]. apply N2 in H. discriminate.
    + rewrite N3. split.
      * intros H. split; [now apply N1 | split; [now apply N2 | exact H]].
      * intros [_ [_ H]]. exact H.
Qed.

(* ================================================================== *)
(** * Index loading *)
(* ================================================================== *)

Ltac unfold_monad :=
  unfold bind, ret, throw, get_this, modify_this, alloc, fetch,
    json_as_index, json_as_preset, register, try_catch, console_warn in *.

Lemma loadRootIndex_cached :
  forall net w root,
    PresetLoader.rootIndex (this w) = Some root ->
    loadRootIndex net w = (Ok root, w).
Proof.
  intros net w root H. unfold loadRootIndex. unfold_monad. now rewrite H.
Qed.

(** C7: when a call of [loadRootIndex()] on an engine whose root index
    is not loaded returns an index, it has fetched
    [{baseUrl}/index.json], once, and a second call returns the same
    object (same identity) and leaves the world, hence the list of
    fetches, as it was, whatever the network would answer now. *)
Theorem loadRootIndex_fetches_once :
  forall (net net' : Network) (w w1 : World) (root : Obj PresetIndex.t),
    PresetLoader.rootIndex (this w) = None ->
    loadRootIndex net w = (Ok root, w1) ->
    fetched w1 = fetched w ++ [(PresetLoader.baseUrl (this w) ++ "/index.json")%string]
    /\ PresetLoader.rootIndex (this w1) = Some root
    /\ loadRootIndex net' w1 = (Ok root, w1)
    /\ fetched (snd (loadRootIndex net' w1)) = fetched w1.
Proof.
  intros net net' w w1 root Hnone Hcall.
  assert (H : fetched w1 =
              fetched w ++ [(PresetLoader.baseUrl (this w) ++ "/index.json")%string]
              /\ PresetLoader.rootIndex (this w1) = Some root).
  { unfold loadRootIndex in Hcall. unfold_monad. rewrite Hnone in Hcall.
    destruct (net (PresetLoader.baseUrl (this w) ++ "/index.json")%string) as [resp|];
      [|discriminate].
    destruct (ok resp); simpl in Hcall; [|discriminate].
    destruct (json_index resp); simpl in Hcall; [|discriminate].
    injection Hcall as <- <-. simpl. auto. }
  destruct H as [Hf Hr].
  rewrite (loadRootIndex_cached net' w1 root Hr). auto.
Qed.

Lemma loadRootIndex_fetches_once_witness :
  let w1 := snd (loadRootIndex Example.net Example.fresh) in
  let root := mkObj 0 (Example.root "FluidR3 GM") in
  PresetLoader.rootIndex (this Example.fresh) = None
  /\ loadRootIndex Example.net Example.fresh = (Ok root, w1)
  /\ fetched w1 = ["https://cdn.example/presets/index.json"%string]
  /\ loadRootIndex Example.offline w1 = (Ok root, w1).
Proof.
  intros w1 root.
  assert (H0 : PresetLoader.rootIndex (this Example.fresh) = None) by reflexivity.
  assert (H1 : loadRootIndex Example.net Example.fresh = (Ok root, w1))
    by reflexivity.
  destruct (loadRootIndex_fetches_once Example.net Example.offline
              Example.fresh w1 root H0 H1) as [Hf [_ [H2 _]]].
  exact (conj H0 (conj H1 (conj Hf H2))).
Defined.

(** ** [loadLibrary] *)

Lemma flat_test_spec :
  forall name root, flat_test name root = true <-> flat_library name root.
Proof.
  intros name root. unfold flat_test, flat_library.
  rewrite andb_true_iff, negb_true_iff, existsb_is_index, String.eqb_eq.
  reflexivity.
Qed.

Lemma loadLibrary_cached :
  forall net name w loaded,
    JsMap.get string_dec (PresetLoader.loadedLibraries (this w)) name = Some loaded ->
    loadLibrary net name w = (Ok loaded, w).
Proof.
  intros net name w loaded H. unfold loadLibrary. unfold_monad. now rewrite H.
Qed.

(** The two ways [loadLibrary] goes on once the root index is there,
    memoised ([w0] is [w]) or just fetched. *)
Lemma loadLibrary_flat_from :
  forall net name w root w0,
    loadRootIndex net w = (Ok root, w0) ->
    JsMap.get string_dec (PresetLoader.loadedLibraries (this w)) name = None ->
    flat_test name (val root) = true ->
    let loaded := mkObj (nextRef w0) (mkLoaded root (PresetLoader.baseUrl (this w))) in
    loadLibrary net name w =
    (Ok loaded,
     mkWorld
       (set_loadedLibraries
          (JsMap.set string_dec (PresetLoader.loadedLibraries (this w0)) name loaded)
          (this w0))
       (fetched w0) (decoded w0) (warned w0) (S (nextRef w0))).
Proof.
  intros net name w root w0 Hroot Hget Hflat. unfold loadLibrary.
  unfold bind at 1. unfold get_this at 1. rewrite Hget.
  unfold bind at 1. rewrite Hroot.
  unfold flat_test in Hflat. rewrite Hflat. reflexivity.
Qed.

Lemma loadLibrary_not_flat_from :
  forall net name w root w0,
    loadRootIndex net w = (Ok root, w0) ->
    JsMap.get string_dec (PresetLoader.loadedLibraries (this w)) name = None ->
    flat_test name (val root) = false ->
    loadLibrary net name w =
    match resolveLibEntry name (PresetIndex.entries (val root)) with
    | None => (Err (LibraryNotFound name), w0)
    | Some libEntry =>
        let libUrl :=
          (PresetLoader.baseUrl (this w) ++ "/" ++ SubIndexEntry.path libEntry)%string in
        match net libUrl with
        | Rejects => (Err NetworkError, log_fetch libUrl w0)
        | Responds resp =>
            if ok resp then
              match json_index resp with
              | None => (Err JsonSyntaxError, log_fetch libUrl w0)
              | Some idx =>
                  let loaded :=
                    mkObj (S (nextRef w0))
                      (mkLoaded (mkObj (nextRef w0) idx) (dirOf libUrl)) in
                  (Ok loaded,
                   mkWorld
                     (set_loadedLibraries
                        (registered_as name (SubIndexEntry.name libEntry) loaded
                           (PresetLoader.loadedLibraries (this w0)))
                        (this w0))
                     (fetched w0 ++ [libUrl]) (decoded w0) (warned w0)
                     (S (S (nextRef w0))))
              end
            else (Err (FetchFailed "library index" (status resp) libUrl),
                  log_fetch libUrl w0)
        end
    end.
Proof.
  intros net name w root w0 Hroot Hget Hflat. unfold loadLibrary.
  unfold bind at 1. unfold get_this at 1. rewrite Hget.
  unfold bind at 1. rewrite Hroot.
  unfold flat_test in Hflat. rewrite Hflat.
  destruct (resolveLibEntry name (PresetIndex.entries (val root))) as [e|];
    [|reflexivity].
  unfold_monad.
  destruct (net (PresetLoader.baseUrl (this w) ++ "/" ++ SubIndexEntry.path e)%string)
    as [resp|]; [|reflexivity].
  destruct (ok resp); simpl; [|reflexivity].
  destruct (json_index resp); simpl; [|reflexivity].
  unfold registered_as.
  destruct (String.eqb (SubIndexEntry.name e) name); reflexivity.
Qed.

(** A root index that does not load is the failure of [loadLibrary]. *)
Lemma loadLibrary_root_failure :
  forall net name w e w0,
    loadRootIndex net w = (Err e, w0) ->
    JsMap.get string_dec (PresetLoader.loadedLibraries (this w)) name = None ->
    loadLibrary net name w = (Err e, w0).
Proof.
  intros net name w e w0 Hroot Hget. unfold loadLibrary.
  unfold bind at 1. unfold get_this at 1. rewrite Hget.
  unfold bind at 1. now rewrite Hroot.
Qed.

Lemma loadLibrary_flat :
  forall net name w root,
    PresetLoader.rootIndex (this w) = Some root ->
    JsMap.get string_dec (PresetLoader.loadedLibraries (this w)) name = None ->
    flat_test name (val root) = true ->
    let loaded := mkObj (nextRef w) (mkLoaded root (PresetLoader.baseUrl (this w))) in
    loadLibrary net name w =
    (Ok loaded,
     mkWorld
       (set_loadedLibraries
          (JsMap.set string_dec (PresetLoader.loadedLibraries (this w)) name loaded)
          (this w))
       (fetched w) (decoded w) (warned w) (S (nextRef w))).
Proof.
  intros net name w root Hroot Hget Hflat.
  exact (loadLibrary_flat_from net name w root w
           (loadRootIndex_cached net w root Hroot) Hget Hflat).
Qed.

Lemma loadLibrary_not_flat :
  forall net name w root,
    PresetLoader.rootIndex (this w) = Some root ->
    JsMap.get string_dec (PresetLoader.loadedLibraries (this w)) name = None ->
    flat_test name (val root) = false ->
    loadLibrary net name w =
    match resolveLibEntry name (PresetIndex.entries (val root)) with
    | None => (Err (LibraryNotFound name), w)
    | Some libEntry =>
        let libUrl :=
          (PresetLoader.baseUrl (this w) ++ "/" ++ SubIndexEntry.path libEntry)%string in
        match net libUrl with
        | Rejects => (Err NetworkError, log_fetch libUrl w)
        | Responds resp =>
            if ok resp then
              match json_index resp with
              | None => (Err JsonSyntaxError, log_fetch libUrl w)
              | Some idx =>
                  let loaded :=
                    mkObj (S (nextRef w))
                      (mkLoaded (mkObj (nextRef w) idx) (dirOf libUrl)) in
                  (Ok loaded,
                   mkWorld
                     (set_loadedLibraries
                        (registered_as name (SubIndexEntry.name libEntry) loaded
                           (PresetLoader.loadedLibraries (this w)))
                        (this w))
                     (fetched w ++ [libUrl]) (decoded w) (warned w)
                     (S (S (nextRef w))))
              end
            else (Err (FetchFailed "library index" (status resp) libUrl),
                  log_fetch libUrl w)
        end
    end.
Proof.
  intros net name w root Hroot Hget Hflat.
  exact (loadLibrary_not_flat_from net name w root w
           (loadRootIndex_cached net w root Hroot) Hget Hflat).
Qed.

Lemma flat_test_false :
  forall name root, flat_test name root = false <-> ~ flat_library name root.
Proof.
  intros name root. rewrite <- flat_test_spec.
  destruct (flat_test name root); split; congruence.
Qed.

(** C4, as amended: for a name that is not loaded yet, and once the
    root index is there (memoised, or fetched by this very call),
    [loadLibrary] takes the first sub-index entry whose name is [name];
    if there is none, the first whose name equals [name] up to case
    once underscores are spaces; if there is none, the first whose path
    starts with [name/].  It fails with the not-found error if and only
    if no entry matches any tier and the root index is not a flat index
    called [name]: a flat index called [name] is the library itself.
    When an entry is found, the result is determined by its path
    alone: the index fetched from [{baseUrl}/{path}] with the directory
    of that URL as base. *)
Theorem loadLibrary_resolution_order :
  forall (net : Network) (name : string) (w w0 : World)
         (root : Obj PresetIndex.t),
    loadRootIndex net w = (Ok root, w0) ->
    JsMap.get string_dec (PresetLoader.loadedLibraries (this w)) name = None ->
    let entries := PresetIndex.entries (val root) in
    (forall e,
        resolveLibEntry name entries = Some e <->
        first_sub (tier_exact name) entries e
        \/ (no_sub (tier_exact name) entries
            /\ first_sub (tier_normalized name) entries e)
        \/ (no_sub (tier_exact name) entries
            /\ no_sub (tier_normalized name) entries
            /\ first_sub (tier_prefix name) entries e))
    /\ (fst (loadLibrary net name w) = Err (LibraryNotFound name) <->
        no_sub (tier_exact name) entries
        /\ no_sub (tier_normalized name) entries
        /\ no_sub (tier_prefix name) entries
        /\ ~ flat_library name (val root))
    /\ (flat_library name (val root) ->
        fst (loadLibrary net name w) =
        Ok (mkObj (nextRef w0) (mkLoaded root (PresetLoader.baseUrl (this w)))))
    /\ (forall e resp idx,
           ~ flat_library name (val root) ->
           resolveLibEntry name entries = Some e ->
           let libUrl :=
             (PresetLoader.baseUrl (this w) ++ "/" ++ SubIndexEntry.path e)%string in
           net libUrl = Responds resp ->
           ok resp = true ->
           json_index resp = Some idx ->
           fst (loadLibrary net name w) =
           Ok (mkObj (S (nextRef w0))
                 (mkLoaded (mkObj (nextRef w0) idx) (dirOf libUrl)))).
Proof.
  intros net name w w0 root Hroot Hget entries.
  split; [intros e; apply resolveLibEntry_Some|].
  split; [|split].
  - destruct (flat_test name (val root)) eqn:Hflat.
    + rewrite (loadLibrary_flat_from net name w root w0 Hroot Hget Hflat). simpl.
      split; [discriminate|].
      intros [_ [_ [_ Hnf]]]. exfalso. apply Hnf. now apply flat_test_spec.
    + rewrite (loadLibrary_not_flat_from net name w root w0 Hroot Hget Hflat).
      fold entries.
      pose proof (resolveLibEntry_None name entries) as HN.
      destruct (resolveLibEntry name entries) as [e|].
      * split.
        -- cbv zeta.
           destruct (net (PresetLoader.baseUrl (this w) ++ "/"
                          ++ SubIndexEntry.path e)%string) as [resp|];
             simpl; [|discriminate].
           destruct (ok resp); simpl; [|discriminate].
           destruct (json_index resp); simpl; discriminate.
        -- intros [H1 [H2 [H3 _]]].
           assert (Hc : Some e = None) by (apply HN; auto). discriminate.
      * simpl. split; [|reflexivity]. intros _.
        destruct HN as [HN _]. destruct (HN eq_refl) as [H1 [H2 H3]].
        refine (conj H1 (conj H2 (conj H3 _))). now apply flat_test_false.
  - intros Hflat. apply flat_test_spec in Hflat.
    now rewrite (loadLibrary_flat_from net name w root w0 Hroot Hget Hflat).
  - intros e resp idx Hnf He libUrl Hnet Hok Hjson.
    apply flat_test_false in Hnf.
    rewrite (loadLibrary_not_flat_from net name w root w0 Hroot Hget Hnf).
    fold entries. rewrite He. cbv zeta. subst libUrl.
    rewrite Hnet, Hok, Hjson. reflexivity.
Qed.

(** The library of the example, whatever name the root index gives it,
    on an engine that has not loaded anything yet. *)
Lemma loadLibrary_resolution_order_witness :
  let requested := "FluidR3_GM"%string in
  let loaded :=
    mkObj 2 (mkLoaded (mkObj 1 Example.fluid)
               "https://cdn.example/presets/FluidR3_GM"%string) in
  let load listed :=
    fst (loadLibrary (Example.net_with (Example.root listed)) requested
           Example.fresh) in
  load "FluidR3_GM"%string = Ok loaded
  /\ load "FluidR3 GM"%string = Ok loaded
  /\ load "Fluid Release 3"%string = Ok loaded.
Proof.
  intros requested loaded load.
  assert (H : forall listed e,
             resolveLibEntry requested
               (PresetIndex.entries (Example.root listed)) = Some e ->
             SubIndexEntry.path e = "FluidR3_GM/index.json"%string ->
             load listed = Ok loaded).
  { intros listed e He Hpath. subst load. cbv beta.
    set (net := Example.net_with (Example.root listed)).
    destruct (loadLibrary_resolution_order net requested Example.fresh
                (snd (loadRootIndex net Example.fresh))
                (mkObj 0 (Example.root listed)) eq_refl eq_refl)
      as [_ [_ [_ Hfound]]].
    rewrite (Hfound e (mkResponse 200 (Some Example.fluid) None [])
               Example.fluid).
    - rewrite Hpath. reflexivity.
    - apply flat_test_false. reflexivity.
    - exact He.
    - rewrite Hpath. reflexivity.
    - reflexivity.
    - reflexivity. }
  split; [|split].
  - apply (H _ (Example.sub "FluidR3_GM" "FluidR3_GM/index.json"));
      reflexivity.
  - apply (H _ (Example.sub "FluidR3 GM" "FluidR3_GM/index.json"));
      reflexivity.
  - apply (H _ (Example.sub "Fluid Release 3" "FluidR3_GM/index.json"));
      reflexivity.
Defined.

(** C4 as stated fails on a flat root index: no sub-index entry matches
    the name of the root index, in any tier, and [loadLibrary] of that
    name succeeds all the same. *)
Lemma loadLibrary_flat_root_matches_no_tier :
  let net := Example.net_with Example.flatRoot in
  let w := Example.fresh in
  let entries := PresetIndex.entries Example.flatRoot in
  no_sub (tier_exact "Flat") entries
  /\ no_sub (tier_normalized "Flat") entries
  /\ no_sub (tier_prefix "Flat") entries
  /\ fst (loadLibrary net "Flat" w) =
     Ok (mkObj 1 (mkLoaded (mkObj 0 Example.flatRoot)
                    "https://cdn.example/presets"%string))
  /\ fst (loadLibrary net "Flat" w) <> Err (LibraryNotFound "Flat").
Proof.
  intros net w entries.
  assert (Hno : forall P, no_sub P entries).
  { intros P e' [H|[]]. discriminate. }
  repeat split; try apply Hno. discriminate.
Qed.

(* ================================================================== *)
(** * Search *)
(* ================================================================== *)

Lemma filter_filter :
  forall (A : Type) (f g : A -> bool) (l : list A),
    filter f (filter g l) = filter (fun x => g x && f x) l.
Proof.
  intros A f g l. induction l as [|x l IH]; simpl; [reflexivity|].
  destruct (g x); simpl; [destruct (f x)|]; now rewrite IH.
Qed.

Lemma filter_all :
  forall (A : Type) (l : list A), filter (fun _ => true) l = l.
Proof.
  intros A l. induction l as [|x l IH]; simpl; [reflexivity | now rewrite IH].
Qed.

Lemma filter_if_filter :
  forall (A : Type) (cond : bool) (p : A -> bool) (l : list A),
    filter_if cond p l = filter (fun x => negb cond || p x) l.
Proof.
  intros A [|] p l; simpl; [reflexivity | now rewrite filter_all].
Qed.

Lemma existsb_map :
  forall (A B : Type) (f : B -> bool) (g : A -> B) (l : list A),
    existsb f (map g l) = existsb (fun x => f (g x)) l.
Proof.
  intros A B f g l. induction l as [|x l IH]; simpl; [reflexivity|].
  now rewrite IH.
Qed.

Lemma existsb_pointwise :
  forall (A : Type) (f g : A -> bool) (l : list A),
    (forall x, f x = g x) -> existsb f l = existsb g l.
Proof.
  intros A f g l H. induction l as [|x l IH]; simpl; [reflexivity|].
  now rewrite H, IH.
Qed.

Lemma presets_of_In :
  forall entries e, In e (presets_of entries) <-> In (Preset e) entries.
Proof.
  unfold presets_of. intros entries e. rewrite in_flat_map. split.
  - intros [[x|x] [Hin Hx]]; simpl in Hx; [contradiction|].
    destruct Hx as [<-|[]]. exact Hin.
  - intros Hin. exists (Preset e). split; [exact Hin | now left].
Qed.

Lemma _getEnabledPresets_flat_map :
  forall l,
    _getEnabledPresets l =
    flat_map (fun n => map (pair n) (entries_of_enabled l n))
      (PresetLoader.enabledLibraries l).
Proof.
  intros l. unfold _getEnabledPresets, entries_of_enabled.
  apply flat_map_ext. intros n.
  destruct (JsMap.get string_dec (PresetLoader.loadedLibraries l) n); reflexivity.
Qed.

Lemma _getEnabledPresets_In :
  forall l n e,
    In (n, e) (_getEnabledPresets l) <->
    In n (PresetLoader.enabledLibraries l) /\ In e (entries_of_enabled l n).
Proof.
  intros l n e. rewrite _getEnabledPresets_flat_map, in_flat_map. split.
  - intros [n' [Hn H]]. apply in_map_iff in H.
    destruct H as [e' [[= <- <-] He]]. auto.
  - intros [Hn He]. exists n. split; [exact Hn|]. now apply in_map.
Qed.

Lemma entries_of_enabled_In :
  forall l n e,
    In e (entries_of_enabled l n) <->
    exists lib,
      JsMap.get string_dec (PresetLoader.loadedLibraries l) n = Some lib
      /\ In (Preset e) (PresetIndex.entries (val (index (val lib)))).
Proof.
  intros l n e. unfold entries_of_enabled.
  destruct (JsMap.get string_dec (PresetLoader.loadedLibraries l) n) as [lib|].
  - rewrite presets_of_In. split.
    + intros H. exists lib. auto.
    + intros [lib' [[= <-] H]]. exact H.
  - split; [intros [] | intros [lib [H _]]; discriminate].
Qed.

Lemma PresetCategory_eqb_spec :
  forall a b, PresetCategory_eqb a b = true <-> a = b.
Proof. intros [] []; simpl; split; congruence. Qed.

Lemma option_Z_eqb_spec :
  forall a b, option_Z_eqb a b = true <-> a = Some b.
Proof.
  intros [x|] b; simpl.
  - rewrite Z.eqb_eq. split; congruence.
  - split; discriminate.
Qed.

Lemma tags_test_spec :
  forall (etags tags : list string),
    existsb (fun t =>
               existsb (fun q => String.eqb (Str.toLowerCase t) (Str.toLowerCase q))
                 tags) etags = true <->
    exists t q, In t etags /\ In q tags /\ Str.toLowerCase t = Str.toLowerCase q.
Proof.
  intros etags tags. rewrite existsb_exists. split.
  - intros [t [Ht H]]. apply existsb_exists in H. destruct H as [q [Hq H]].
    apply String.eqb_eq in H. eauto.
  - intros [t [q [Ht [Hq H]]]]. exists t. split; [exact Ht|].
    apply existsb_exists. exists q. split; [exact Hq|].
    now apply String.eqb_eq.
Qed.

(** The test is the conjunction of the specification. *)
Lemma matches_filters_spec :
  forall o n e, matches_filters o (n, e) = true <-> satisfies_filters o n e.
Proof.
  intros [library category gmProgram tags name] n e.
  unfold matches_filters, satisfies_filters. simpl.
  rewrite !andb_true_iff.
  assert (HL : match library with
               | Some lib =>
                   negb (truthy lib)
                   || String.eqb (Str.toLowerCase n) (Str.toLowerCase lib)
               | None => true
               end = true <->
               (forall lib, library = Some lib -> lib <> EmptyString ->
                            Str.toLowerCase n = Str.toLowerCase lib)).
  { destruct library as [lib|].
    - rewrite orb_true_iff, negb_true_iff, String.eqb_eq. split.
      + intros [H|H] lib' [= <-] Hne; [|exact H].
        apply truthy_spec in Hne. congruence.
      + intros H. destruct (truthy lib) eqn:Ht; [|now left].
        right. apply H; [reflexivity | now apply truthy_spec].
    - split; [intros _ lib H; discriminate | reflexivity]. }
  assert (HC : match category with
               | Some c => PresetCategory_eqb (PresetEntry.category e) c
               | None => true
               end = true <->
               (forall c, category = Some c -> PresetEntry.category e = c)).
  { destruct category as [c|].
    - rewrite PresetCategory_eqb_spec. split.
      + intros H c' [= <-]. exact H.
      + intros H. now apply H.
    - split; [intros _ c H; discriminate | reflexivity]. }
  assert (HG : match gmProgram with
               | Some g => option_Z_eqb (PresetEntry.gmProgram e) g
               | None => true
               end = true <->
               (forall g, gmProgram = Some g -> PresetEntry.gmProgram e = Some g)).
  { destruct gmProgram as [g|].
    - rewrite option_Z_eqb_spec. split.
      + intros H g' [= <-]. exact H.
      + intros H. now apply H.
    - split; [intros _ g H; discriminate | reflexivity]. }
  assert (HT : match tags with
               | Some [] => true
               | Some ts =>
                   existsb (fun t =>
                              existsb (fun q => String.eqb (Str.toLowerCase t)
                                                  (Str.toLowerCase q)) ts)
                     (PresetEntry.tags e)
               | None => true
               end = true <->
               (forall ts, tags = Some ts -> ts <> [] ->
                  exists t q, In t (PresetEntry.tags e) /\ In q ts
                              /\ Str.toLowerCase t = Str.toLowerCase q)).
  { destruct tags as [[|q0 ts]|].
    - split; [intros _ ts' [= <-] Hne; congruence | reflexivity].
    - rewrite tags_test_spec. split.
      + intros H ts' [= <-] _. exact H.
      + intros H. apply H; [reflexivity | discriminate].
    - split; [intros _ ts H; discriminate | reflexivity]. }
  assert (HN : match name with
               | Some nm =>
                   Str.includes (Str.toLowerCase (PresetEntry.name e))
                     (Str.toLowerCase nm)
               | None => true
               end = true <->
               (forall nm, name = Some nm ->
                  substring_of (Str.toLowerCase nm)
                    (Str.toLowerCase (PresetEntry.name e)))).
  { destruct name as [nm|].
    - rewrite includes_spec. split.
      + intros H nm' [= <-]. exact H.
      + intros H. now apply H.
    - split; [intros _ nm H; discriminate | reflexivity]. }
  rewrite HL, HC, HG, HT, HN. tauto.
Qed.

(** The chain of conditional filters is one filter. *)
Lemma search_as_filter :
  forall o l,
    search o l = map snd (filter (matches_filters o) (_getEnabledPresets l)).
Proof.
  intros [library category gmProgram tags name] l. unfold search. simpl.
  f_equal.
  set (f1 := fun r : string * PresetEntry.t =>
               match library with
               | Some lib =>
                   negb (truthy lib)
                   || String.eqb (Str.toLowerCase (fst r)) (Str.toLowerCase lib)
               | None => true
               end).
  set (f2 := fun r : string * PresetEntry.t =>
               match category with
               | Some c => PresetCategory_eqb (PresetEntry.category (snd r)) c
               | None => true
               end).
  set (f3 := fun r : string * PresetEntry.t =>
               match gmProgram with
               | Some g => option_Z_eqb (PresetEntry.gmProgram (snd r)) g
               | None => true
               end).
  set (f4 := fun r : string * PresetEntry.t =>
               match tags with
               | Some [] => true
               | Some ts =>
                   existsb (fun t =>
                              existsb (fun q => String.eqb (Str.toLowerCase t)
                                                  (Str.toLowerCase q)) ts)
                     (PresetEntry.tags (snd r))
               | None => true
               end).
  set (f5 := fun r : string * PresetEntry.t =>
               match name with
               | Some nm =>
                   Str.includes (Str.toLowerCase (PresetEntry.name (snd r)))
                     (Str.toLowerCase nm)
               | None => true
               end).
  assert (S1 : forall X,
             match library with
             | Some lib =>
                 filter_if (truthy lib)
                   (fun r : string * PresetEntry.t =>
                      String.eqb (Str.toLowerCase (fst r)) (Str.toLowerCase lib)) X
             | None => X
             end = filter f1 X).
  { intros X. subst f1. destruct library as [lib|]; [|now rewrite filter_all].
    now rewrite filter_if_filter. }
  assert (S2 : forall X,
             match category with
             | Some c =>
                 filter (fun r : string * PresetEntry.t =>
                           PresetCategory_eqb (PresetEntry.category (snd r)) c) X
             | None => X
             end = filter f2 X).
  { intros X. subst f2. destruct category; [reflexivity | now rewrite filter_all]. }
  assert (S3 : forall X,
             match gmProgram with
             | Some g =>
                 filter (fun r : string * PresetEntry.t =>
                           option_Z_eqb (PresetEntry.gmProgram (snd r)) g) X
             | None => X
             end = filter f3 X).
  { intros X. subst f3. destruct gmProgram; [reflexivity | now rewrite filter_all]. }
  assert (S4 : forall X,
             match tags with
             | Some ts =>
                 filter_if (0 <? List.length ts)%nat
                   (fun r : string * PresetEntry.t =>
                      existsb (fun t =>
                                 existsb (String.eqb (Str.toLowerCase t))
                                   (map Str.toLowerCase ts))
                        (PresetEntry.tags (snd r))) X
             | None => X
             end = filter f4 X).
  { intros X. subst f4. destruct tags as [[|q0 ts]|]; try now rewrite filter_all.
    rewrite filter_if_filter. apply filter_ext. intros r. simpl.
    apply existsb_pointwise. intros t. now rewrite existsb_map. }
  assert (S5 : forall X,
             match name with
             | Some nm =>
                 filter_if (truthy nm)
                   (fun r : string * PresetEntry.t =>
                      Str.includes (Str.toLowerCase (PresetEntry.name (snd r)))
                        (Str.toLowerCase nm)) X
             | None => X
             end = filter f5 X).
  { intros X. subst f5. destruct name as [nm|]; [|now rewrite filter_all].
    rewrite filter_if_filter. apply filter_ext. intros r.
    destruct (truthy nm) eqn:Ht; simpl; [reflexivity|].
    unfold truthy in Ht. apply negb_false_iff, String.eqb_eq in Ht. subst nm.
    simpl. now rewrite includes_empty. }
  cbv zeta. rewrite S5, S4, S3, S2, S1.
  rewrite !filter_filter. apply filter_ext. intros r.
  unfold matches_filters. subst f1 f2 f3 f4 f5. simpl.
  now rewrite !andb_assoc.
Qed.

(** C5: [search(options)] keeps, in order and with their
    multiplicity, the records of [_getEnabledPresets] that satisfy
    every supplied filter, and returns their entries.  A record is an
    enabled library name together with a preset entry of the index
    loaded under that name, so that no entry comes from a library that
    is loaded and not enabled.  A filter is supplied when the option is
    present and, for [library], [tags] and [name], not empty.  With
    nothing enabled the result is the empty list. *)
Theorem search_is_conjunctive_filter_of_enabled :
  forall (o : SearchOptions.t) (l : PresetLoader.t),
    search o l = map snd (filter (matches_filters o) (_getEnabledPresets l))
    /\ (forall n e,
           matches_filters o (n, e) = true <-> satisfies_filters o n e)
    /\ (forall n e,
           In (n, e) (_getEnabledPresets l) <->
           In n (PresetLoader.enabledLibraries l)
           /\ exists lib,
               JsMap.get string_dec (PresetLoader.loadedLibraries l) n = Some lib
               /\ In (Preset e) (PresetIndex.entries (val (index (val lib)))))
    /\ (forall e,
           In e (search o l) <->
           exists n lib,
             In n (PresetLoader.enabledLibraries l)
             /\ JsMap.get string_dec (PresetLoader.loadedLibraries l) n = Some lib
             /\ In (Preset e) (PresetIndex.entries (val (index (val lib))))
             /\ satisfies_filters o n e)
    /\ (PresetLoader.enabledLibraries l = [] -> search o l = []).
Proof.
  intros o l.
  assert (HIn : forall n e,
             In (n, e) (_getEnabledPresets l) <->
             In n (PresetLoader.enabledLibraries l)
             /\ exists lib,
                 JsMap.get string_dec (PresetLoader.loadedLibraries l) n = Some lib
                 /\ In (Preset e) (PresetIndex.entries (val (index (val lib))))).
  { intros n e. rewrite _getEnabledPresets_In, entries_of_enabled_In.
    reflexivity. }
  split; [apply search_as_filter|].
  split; [apply matches_filters_spec|].
  split; [exact HIn|]. split.
  - intros e. rewrite search_as_filter, in_map_iff. split.
    + intros [[n e'] [Hsnd Hin]]. simpl in Hsnd. subst e'.
      apply filter_In in Hin. destruct Hin as [Hin Hm].
      apply HIn in Hin. destruct Hin as [Hn [lib [Hget He]]].
      exists n, lib.
      split; [exact Hn | split; [exact Hget | split; [exact He|]]].
      now apply matches_filters_spec.
    + intros [n [lib [Hn [Hget [He Hs]]]]]. exists (n, e).
      split; [reflexivity|]. apply filter_In. split.
      * apply HIn. eauto.
      * now apply matches_filters_spec.
  - intros Hnone. rewrite search_as_filter.
    unfold _getEnabledPresets. now rewrite Hnone.
Qed.

(** Two enabled libraries, one tag, in another case. *)
Lemma search_is_conjunctive_filter_of_enabled_witness :
  let o := SearchOptions.mk None None None (Some ["Piano"%string]) None in
  let l := this Example.withBoth in
  PresetLoader.enabledLibraries l = ["FluidR3 GM"%string; "LibA"%string]
  /\ satisfies_filters o "FluidR3 GM" Example.rhodes
  /\ In Example.rhodes (search o l)
  /\ search o l =
     [Example.rhodes; Example.entry "X" "x.json" sampler ["piano"%string]].
Proof.
  intros o l.
  destruct (search_is_conjunctive_filter_of_enabled o l)
    as [_ [Hspec [_ [Hin _]]]].
  assert (Hs : satisfies_filters o "FluidR3 GM" Example.rhodes)
    by (apply Hspec; reflexivity).
  refine (conj eq_refl (conj Hs (conj _ eq_refl))).
  apply Hin.
  exists "FluidR3 GM"%string,
         (mkObj 2 (mkLoaded (mkObj 1 Example.fluid)
                     "https://cdn.example/presets/FluidR3_GM"%string)).
  refine (conj _ (conj eq_refl (conj _ Hs))).
  - left. reflexivity.
  - right. left. reflexivity.
Defined.

(* ================================================================== *)
(** * Fuzzy search *)
(* ================================================================== *)

Lemma Qltb_spec : forall x y, Qltb x y = true <-> (x < y)%Q.
Proof.
  intros x y. unfold Qltb. rewrite negb_true_iff. split.
  - intros H. apply Qnot_le_lt. intros Hle.
    apply Qle_bool_iff in Hle. congruence.
  - intros H. destruct (Qle_bool y x) eqn:E; [|reflexivity].
    apply Qle_bool_iff in E. exfalso. exact (Qlt_not_le _ _ H E).
Qed.

Lemma Qltb_false : forall x y, Qltb x y = false <-> (y <= x)%Q.
Proof.
  intros x y. unfold Qltb. rewrite negb_false_iff. apply Qle_bool_iff.
Qed.

Lemma Qminus_neg : forall x y, (x - y < 0)%Q <-> (x < y)%Q.
Proof.
  intros x y. rewrite (Qlt_minus_iff x y), (Qlt_minus_iff (x - y) 0).
  assert (E : (0 + - (x - y) == y + - x)%Q) by ring.
  now rewrite E.
Qed.

Section Sorting.
Variable A : Type.
Variable compare : A -> A -> Q.

Lemma insert_sorted_perm :
  forall x l, Permutation (insert_sorted compare x l) (x :: l).
Proof.
  intros x l. induction l as [|y l IH]; simpl; [apply Permutation_refl|].
  destruct (Qltb (compare y x) 0).
  - eapply Permutation_trans; [apply perm_skip, IH | apply perm_swap].
  - apply Permutation_refl.
Qed.

Lemma sort_perm : forall l, Permutation (sort compare l) l.
Proof.
  induction l as [|x l IH]; simpl; [apply Permutation_refl|].
  eapply Permutation_trans; [apply insert_sorted_perm | now apply perm_skip].
Qed.

End Sorting.

Section Ranking.
Variable A : Type.

Local Abbreviation by_score := (@by_score_desc A).

Lemma insert_by_score_sorted :
  forall x l,
    StronglySorted descending l ->
    StronglySorted descending (insert_sorted by_score x l).
Proof.
  intros x l Hs. induction Hs as [|y l Hs IH Hall]; simpl.
  - constructor; constructor.
  - destruct (Qltb (by_score y x) 0) eqn:E.
    + constructor; [exact IH|].
      unfold by_score_desc in E. apply Qltb_spec in E.
      apply -> Qminus_neg in E.
      assert (Hp : Permutation (insert_sorted by_score x l) (x :: l))
        by apply insert_sorted_perm.
      apply Forall_forall. intros z Hz.
      apply (Permutation_in _ Hp) in Hz. destruct Hz as [<-|Hz].
      * unfold descending. now apply Qlt_le_weak.
      * rewrite Forall_forall in Hall. now apply Hall.
    + apply Qltb_false in E. unfold by_score_desc in E.
      assert (Hyx : (snd y <= snd x)%Q).
      { apply Qle_minus_iff. exact E. }
      constructor; [constructor; assumption|].
      constructor; [exact Hyx|].
      rewrite Forall_forall in *. intros z Hz. unfold descending in *.
      eapply Qle_trans; [apply Hall, Hz | exact Hyx].
Qed.

Lemma sort_by_score_sorted :
  forall l, StronglySorted descending (sort by_score l).
Proof.
  induction l as [|x l IH]; simpl; [constructor|].
  now apply insert_by_score_sorted.
Qed.

Lemma sorted_prefix_dominates :
  forall (n : nat) (l : list (A * Q)),
    StronglySorted descending l ->
    forall a b, In a (firstn n l) -> In b (skipn n l) -> descending a b.
Proof.
  intros n l Hs. revert n.
  induction Hs as [|x l Hs IH Hall]; intros n a b Ha Hb.
  - rewrite firstn_nil in Ha. contradiction.
  - destruct n as [|n]; simpl in *; [contradiction|].
    destruct Ha as [<-|Ha].
    + rewrite Forall_forall in Hall. apply Hall.
      rewrite <- (firstn_skipn n l). apply in_or_app. now right.
    + now apply (IH n).
Qed.

End Ranking.

Lemma score_of_cascade :
  forall needle e,
    let name := Str.toLowerCase (PresetEntry.name e) in
    let tagged :=
      exists t, In t (PresetEntry.tags e)
                /\ substring_of needle (Str.toLowerCase t) in
    (name = needle -> score_of needle e = 100%Q)
    /\ (name <> needle -> (exists rest, name = (needle ++ rest)%string) ->
        score_of needle e = 80%Q)
    /\ (~ (exists rest, name = (needle ++ rest)%string) ->
        substring_of needle name -> score_of needle e = 60%Q)
    /\ (~ substring_of needle name -> tagged -> score_of needle e = 40%Q)
    /\ (~ substring_of needle name -> ~ tagged ->
        let words := Str.split_ws needle in
        let matched := filter (word_matchesb e) words in
        score_of needle e =
        (inject_Z (Z.of_nat (List.length matched))
         / inject_Z (Z.of_nat (List.length words)) * 30)%Q).
Proof.
  intros needle e name tagged. unfold score_of. fold name.
  assert (Heq : String.eqb name needle = true <-> name = needle)
    by apply String.eqb_eq.
  assert (Hpre : Str.startsWith name needle = true <->
                 exists rest, name = (needle ++ rest)%string)
    by apply startsWith_spec.
  assert (Hinc : Str.includes name needle = true <-> substring_of needle name)
    by apply includes_spec.
  assert (Htag : existsb (fun t => Str.includes (Str.toLowerCase t) needle)
                   (PresetEntry.tags e) = true <-> tagged).
  { unfold tagged. rewrite existsb_exists.
    split; intros [t [Ht H]]; exists t; split; auto; now apply includes_spec. }
  assert (Hpre_inc : (exists rest, name = (needle ++ rest)%string) ->
                     substring_of needle name).
  { intros [rest H]. exists EmptyString, rest. exact H. }
  assert (Heq_pre : name = needle -> exists rest, name = (needle ++ rest)%string).
  { intros H. exists EmptyString. now rewrite string_app_nil_r. }
  destruct (String.eqb name needle) eqn:E1.
  { assert (H1 : name = needle) by now apply Heq.
    repeat split; intros; try reflexivity; exfalso; tauto. }
  assert (N1 : name <> needle) by (intros H; apply Heq in H; congruence).
  destruct (Str.startsWith name needle) eqn:E2.
  { assert (H2 : exists rest, name = (needle ++ rest)%string) by now apply Hpre.
    repeat split; intros; try reflexivity; exfalso; tauto. }
  assert (N2 : ~ exists rest, name = (needle ++ rest)%string)
    by (intros H; apply Hpre in H; congruence).
  destruct (Str.includes name needle) eqn:E3.
  { assert (H3 : substring_of needle name) by now apply Hinc.
    repeat split; intros; try reflexivity; exfalso; tauto. }
  assert (N3 : ~ substring_of needle name)
    by (intros H; apply Hinc in H; congruence).
  destruct (existsb (fun t => Str.includes (Str.toLowerCase t) needle)
              (PresetEntry.tags e)) eqn:E4.
  { assert (H4 : tagged) by now apply Htag.
    repeat split; intros; try reflexivity; exfalso; tauto. }
  assert (N4 : ~ tagged) by (intros H; apply Htag in H; congruence).
  repeat split; intros; try reflexivity; exfalso; tauto.
Qed.

Lemma word_matchesb_spec :
  forall e w, word_matchesb e w = true <-> word_matches e w.
Proof.
  intros e w. unfold word_matchesb, word_matches.
  rewrite orb_true_iff, includes_spec, existsb_exists.
  split; (intros [H|[t [Ht H]]]; [now left | right; exists t; split; auto;
                                           now apply includes_spec]).
Qed.

Lemma fuzzy_ranked_perm :
  forall query l,
    Permutation (fuzzy_ranked query l)
      (filter (fun s => Qltb 0 (snd s))
         (map (fun r => (snd r, score_of (Str.toLowerCase query) (snd r)))
            (_getEnabledPresets l))).
Proof.
  intros query l. unfold fuzzy_ranked. apply sort_perm.
Qed.

Lemma fuzzy_ranked_In :
  forall query l e s,
    In (e, s) (fuzzy_ranked query l) <->
    (exists n, In (n, e) (_getEnabledPresets l))
    /\ s = score_of (Str.toLowerCase query) e
    /\ (0 < s)%Q.
Proof.
  intros query l e s. split.
  - intros H. apply (Permutation_in _ (fuzzy_ranked_perm query l)) in H.
    apply filter_In in H. destruct H as [H Hpos]. simpl in Hpos.
    apply in_map_iff in H. destruct H as [[n e'] [[= <- <-] Hin]].
    split; [now exists n|]. split; [reflexivity | now apply Qltb_spec].
  - intros [[n Hin] [-> Hpos]].
    apply (Permutation_in _ (Permutation_sym (fuzzy_ranked_perm query l))).
    apply filter_In. split; [|now apply Qltb_spec].
    apply in_map_iff. exists (n, e). auto.
Qed.

(** C6: [fuzzySearch(query, limit)] scores every entry of the enabled
    libraries against the lower-cased query: 100 when the lower-cased
    name is the query, 80 when it starts with it, 60 when it contains
    it, 40 when a lower-cased tag contains it, and otherwise
    30 * matched / total over the pieces of the query between runs of
    white space, a piece matching when the name or a tag contains it.
    The ranked records are exactly the candidates of positive score, in
    descending order of score, and the result is the entries of the
    first [limit] of them: no record left out has a higher score than a
    record returned. *)
Theorem fuzzySearch_ranks_by_score :
  forall (query : string) (limit : nat) (l : PresetLoader.t),
    let needle := Str.toLowerCase query in
    let ranked := fuzzy_ranked query l in
    (forall e,
        let name := Str.toLowerCase (PresetEntry.name e) in
        let tagged :=
          exists t, In t (PresetEntry.tags e)
                    /\ substring_of needle (Str.toLowerCase t) in
        (name = needle -> score_of needle e = 100%Q)
        /\ (name <> needle -> (exists rest, name = (needle ++ rest)%string) ->
            score_of needle e = 80%Q)
        /\ (~ (exists rest, name = (needle ++ rest)%string) ->
            substring_of needle name -> score_of needle e = 60%Q)
        /\ (~ substring_of needle name -> tagged -> score_of needle e = 40%Q)
        /\ (~ substring_of needle name -> ~ tagged ->
            let words := Str.split_ws needle in
            let matched := filter (word_matchesb e) words in
            score_of needle e =
            (inject_Z (Z.of_nat (List.length matched))
             / inject_Z (Z.of_nat (List.length words)) * 30)%Q)
        /\ (forall w, word_matchesb e w = true <-> word_matches e w))
    /\ Permutation ranked
         (filter (fun s => Qltb 0 (snd s))
            (map (fun r => (snd r, score_of needle (snd r)))
               (_getEnabledPresets l)))
    /\ (forall e s,
           In (e, s) ranked <->
           (exists n, In (n, e) (_getEnabledPresets l))
           /\ s = score_of needle e /\ (0 < s)%Q)
    /\ StronglySorted descending ranked
    /\ fuzzySearch query limit l = map fst (firstn limit ranked)
    /\ (forall a b,
           In a (firstn limit ranked) -> In b (skipn limit ranked) ->
           (snd b <= snd a)%Q)
    /\ List.length (fuzzySearch query limit l) =
       Nat.min limit (List.length ranked).
Proof.
  intros query limit l needle ranked.
  assert (Hsorted : StronglySorted descending ranked).
  { subst ranked. unfold fuzzy_ranked. apply sort_by_score_sorted. }
  split.
  { intros e name tagged.
    destruct (score_of_cascade needle e) as [H1 [H2 [H3 [H4 H5]]]].
    repeat (split; [assumption|]). apply word_matchesb_spec. }
  split; [apply fuzzy_ranked_perm|].
  split; [apply fuzzy_ranked_In|].
  split; [exact Hsorted|].
  split; [reflexivity|].
  split.
  - intros a b Ha Hb.
    exact (sorted_prefix_dominates _ limit ranked Hsorted a b Ha Hb).
  - unfold fuzzySearch. fold ranked. now rewrite length_map, length_firstn.
Qed.

(** The example of the specification: the query "grand piano" against
    "Grand Piano", "Acoustic Grand Piano", an entry tagged "piano", and
    an entry that matches nothing. *)
Lemma fuzzySearch_ranks_by_score_witness :
  let l := this Example.withFluid in
  Str.toLowerCase (PresetEntry.name Example.grandPiano) =
  Str.toLowerCase "grand piano"
  /\ score_of (Str.toLowerCase "grand piano") Example.grandPiano = 100%Q
  /\ fuzzy_ranked "grand piano" l =
     [(Example.grandPiano, 100%Q); (Example.acousticGrand, 60%Q);
      (Example.rhodes, (30 # 2)%Q)]
  /\ fuzzySearch "grand piano" 20 l =
     [Example.grandPiano; Example.acousticGrand; Example.rhodes].
Proof.
  intros l.
  assert (Hname : Str.toLowerCase (PresetEntry.name Example.grandPiano) =
                  Str.toLowerCase "grand piano") by reflexivity.
  destruct (fuzzySearch_ranks_by_score "grand piano" 20 l) as [Hscore _].
  destruct (Hscore Example.grandPiano) as [H100 _].
  refine (conj Hname (conj (H100 Hname) (conj _ _))); vm_compute; reflexivity.
Defined.

(* ================================================================== *)
(** * One library under two names *)
(* ================================================================== *)

Lemma set_add_In_same : forall x s, In x (set_add x s).
Proof.
  intros x s. unfold set_add. destruct (in_dec string_dec x s); [assumption|].
  apply in_or_app. right. now left.
Qed.

Lemma set_add_In_old : forall x y s, In y s -> In y (set_add x s).
Proof.
  intros x y s H. unfold set_add. destruct (in_dec string_dec x s); [assumption|].
  apply in_or_app. now left.
Qed.

Section Duplicates.
Variable l : PresetLoader.t.
Variable keep : string * PresetEntry.t -> bool.

Local Abbreviation kept := (kept_entries l keep).

Lemma kept_app : forall n1 n2, kept (n1 ++ n2) = kept n1 ++ kept n2.
Proof.
  intros n1 n2. unfold kept_entries.
  now rewrite flat_map_app, filter_app, map_app.
Qed.

Lemma kept_In :
  forall names n e,
    In n names -> In e (entries_of_enabled l n) -> keep (n, e) = true ->
    In e (kept names).
Proof.
  intros names n e Hn He Hk. unfold kept_entries. apply in_map_iff.
  exists (n, e). split; [reflexivity|]. apply filter_In. split; [|exact Hk].
  apply in_flat_map. exists n. split; [exact Hn | now apply in_map].
Qed.

Lemma kept_twice :
  forall names a c e,
    a <> c -> In a names -> In c names ->
    In e (entries_of_enabled l a) -> In e (entries_of_enabled l c) ->
    keep (a, e) = true -> keep (c, e) = true ->
    2 <= count_occ PresetEntry_eq_dec (kept names) e.
Proof.
  intros names a c e Hne Ha Hc Hea Hec Hka Hkc.
  destruct (in_split a names Ha) as [n1 [n2 ->]].
  assert (Hone : forall ns, In c ns ->
                   1 <= count_occ PresetEntry_eq_dec (kept ns) e).
  { intros ns Hin. apply count_occ_In. now apply (kept_In ns c e). }
  assert (Ha1 : 1 <= count_occ PresetEntry_eq_dec (kept [a]) e).
  { apply count_occ_In. apply (kept_In [a] a e); auto. now left. }
  replace (n1 ++ a :: n2) with (n1 ++ [a] ++ n2) by reflexivity.
  rewrite !kept_app, !count_occ_app.
  apply in_app_or in Hc. destruct Hc as [Hc|[Hc|Hc]].
  - specialize (Hone n1 Hc). lia.
  - congruence.
  - specialize (Hone n2 Hc). lia.
Qed.

Lemma filtered_enabled_twice :
  forall a c e,
    a <> c ->
    In a (PresetLoader.enabledLibraries l) -> In c (PresetLoader.enabledLibraries l) ->
    In e (entries_of_enabled l a) -> In e (entries_of_enabled l c) ->
    keep (a, e) = true -> keep (c, e) = true ->
    2 <= count_occ PresetEntry_eq_dec
           (map snd (filter keep (_getEnabledPresets l))) e.
Proof.
  intros a c e Hne Ha Hc Hea Hec Hka Hkc.
  rewrite _getEnabledPresets_flat_map.
  exact (kept_twice (PresetLoader.enabledLibraries l) a c e Hne Ha Hc Hea Hec Hka Hkc).
Qed.

End Duplicates.

Lemma fuzzy_entries_as_filter :
  forall needle (X : list (string * PresetEntry.t)),
    map fst
      (filter (fun s => Qltb 0 (snd s))
         (map (fun r => (snd r, score_of needle (snd r))) X)) =
    map snd (filter (fun r => Qltb 0 (score_of needle (snd r))) X).
Proof.
  intros needle X. induction X as [|r X IH]; simpl; [reflexivity|].
  destruct (Qltb 0 (score_of needle (snd r))); simpl; now rewrite IH.
Qed.

Lemma enableLibrary_run :
  forall net name w loaded w',
    loadLibrary net name w = (Ok loaded, w') ->
    enableLibrary net name w =
    (Ok tt,
     with_this (fun l =>
       set_enabledLibraries (set_add name (PresetLoader.enabledLibraries l)) l) w').
Proof.
  intros net name w loaded w' H. unfold enableLibrary, bind. rewrite H.
  reflexivity.
Qed.

(** C10: let [alias] be a name that [loadLibrary] resolves to a
    sub-index entry with another, canonical, name.  Then
    [enableLibrary(alias)] followed by [enableLibrary(canonical)]
    succeeds with a single fetch; one and the same [LoadedLibrary]
    object is registered under both names, and both names are enabled.
    Every preset entry of the library is then enumerated by
    [_getEnabledPresets] under each of the two names, and it occurs at
    least twice in the result of a [search] whose filters accept it
    under both names, and in the result of a [fuzzySearch] that scores
    it above 0 and whose limit does not cut the ranking. *)
Theorem alias_and_canonical_name_duplicate_entries :
  forall (net : Network) (w : World) (root : Obj PresetIndex.t)
         (alias : string) (libEntry : SubIndexEntry.t)
         (resp : Response) (idx : PresetIndex.t),
    PresetLoader.rootIndex (this w) = Some root ->
    JsMap.get string_dec (PresetLoader.loadedLibraries (this w)) alias = None ->
    ~ flat_library alias (val root) ->
    resolveLibEntry alias (PresetIndex.entries (val root)) = Some libEntry ->
    SubIndexEntry.name libEntry <> alias ->
    let libUrl :=
      (PresetLoader.baseUrl (this w) ++ "/" ++ SubIndexEntry.path libEntry)%string in
    net libUrl = Responds resp ->
    ok resp = true ->
    json_index resp = Some idx ->
    let canonical := SubIndexEntry.name libEntry in
    let w1 := snd (enableLibrary net alias w) in
    let w2 := snd (enableLibrary net canonical w1) in
    let l := this w2 in
    fst (enableLibrary net alias w) = Ok tt
    /\ fst (enableLibrary net canonical w1) = Ok tt
    /\ fetched w2 = fetched w ++ [libUrl]
    /\ (exists lib,
           JsMap.get string_dec (PresetLoader.loadedLibraries l) alias = Some lib
           /\ JsMap.get string_dec (PresetLoader.loadedLibraries l) canonical = Some lib
           /\ val (index (val lib)) = idx)
    /\ In alias (PresetLoader.enabledLibraries l)
    /\ In canonical (PresetLoader.enabledLibraries l)
    /\ (forall e,
           In (Preset e) (PresetIndex.entries idx) ->
           In (alias, e) (_getEnabledPresets l)
           /\ In (canonical, e) (_getEnabledPresets l)
           /\ (forall o,
                  satisfies_filters o alias e ->
                  satisfies_filters o canonical e ->
                  2 <= count_occ PresetEntry_eq_dec (search o l) e)
           /\ (forall query limit,
                  (0 < score_of (Str.toLowerCase query) e)%Q ->
                  List.length (fuzzy_ranked query l) <= limit ->
                  2 <= count_occ PresetEntry_eq_dec
                         (fuzzySearch query limit l) e)).
Proof.
  intros net w root alias libEntry resp idx Hroot Hget Hnf Hres Hname libUrl
         Hnet Hok Hjson canonical w1 w2 l.
  apply flat_test_false in Hnf.
  pose proof (loadLibrary_not_flat net alias w root Hroot Hget Hnf) as Hload.
  rewrite Hres in Hload. cbv zeta in Hload. fold libUrl in Hload.
  rewrite Hnet, Hok, Hjson in Hload.
  set (lib := mkObj (S (nextRef w))
                (mkLoaded (mkObj (nextRef w) idx) (dirOf libUrl))) in *.
  pose proof (enableLibrary_run net alias w _ _ Hload) as Hen1.
  assert (Hreg : registered_as alias (SubIndexEntry.name libEntry) lib
                   (PresetLoader.loadedLibraries (this w)) =
                 JsMap.set string_dec
                   (JsMap.set string_dec (PresetLoader.loadedLibraries (this w))
                      alias lib) canonical lib).
  { unfold registered_as.
    destruct (String.eqb_spec (SubIndexEntry.name libEntry) alias);
      [contradiction | reflexivity]. }
  assert (Hm1 : PresetLoader.loadedLibraries (this w1) =
                JsMap.set string_dec
                  (JsMap.set string_dec (PresetLoader.loadedLibraries (this w))
                     alias lib) canonical lib).
  { subst w1. rewrite Hen1. simpl. exact Hreg. }
  assert (Hc1 : JsMap.get string_dec (PresetLoader.loadedLibraries (this w1)) canonical
                = Some lib).
  { rewrite Hm1. apply get_set_same. }
  assert (Ha1 : JsMap.get string_dec (PresetLoader.loadedLibraries (this w1)) alias
                = Some lib).
  { rewrite Hm1. rewrite get_set_other by (intros E; apply Hname; now rewrite E).
    apply get_set_same. }
  pose proof (loadLibrary_cached net canonical w1 lib Hc1) as Hload2.
  pose proof (enableLibrary_run net canonical w1 _ _ Hload2) as Hen2.
  assert (Hm2 : PresetLoader.loadedLibraries l = PresetLoader.loadedLibraries (this w1)).
  { subst l w2. rewrite Hen2. reflexivity. }
  assert (He2 : PresetLoader.enabledLibraries l =
                set_add canonical (set_add alias (PresetLoader.enabledLibraries (this w)))).
  { subst l w2. rewrite Hen2. simpl. subst w1. rewrite Hen1. reflexivity. }
  assert (HinA : In alias (PresetLoader.enabledLibraries l)).
  { rewrite He2. apply set_add_In_old, set_add_In_same. }
  assert (HinC : In canonical (PresetLoader.enabledLibraries l)).
  { rewrite He2. apply set_add_In_same. }
  split; [now rewrite Hen1|]. split; [now rewrite Hen2|].
  split.
  { subst w2. rewrite Hen2. simpl. subst w1. rewrite Hen1. reflexivity. }
  split.
  { exists lib. rewrite Hm2. auto. }
  split; [exact HinA|]. split; [exact HinC|].
  intros e He.
  assert (HeA : In e (entries_of_enabled l alias)).
  { apply entries_of_enabled_In. exists lib. rewrite Hm2. auto. }
  assert (HeC : In e (entries_of_enabled l canonical)).
  { apply entries_of_enabled_In. exists lib. rewrite Hm2. auto. }
  assert (Hdiff : alias <> canonical) by (intros E; apply Hname; now rewrite E).
  split; [apply _getEnabledPresets_In; auto|].
  split; [apply _getEnabledPresets_In; auto|].
  split.
  - intros o HsA HsC. rewrite search_as_filter.
    apply (filtered_enabled_twice l (matches_filters o) alias canonical e);
      auto; now apply matches_filters_spec.
  - intros query limit Hpos Hlimit. unfold fuzzySearch.
    rewrite firstn_all2 by exact Hlimit.
    assert (Hperm : Permutation (map fst (fuzzy_ranked query l))
                      (map fst
                         (filter (fun s => Qltb 0 (snd s))
                            (map (fun r => (snd r,
                                            score_of (Str.toLowerCase query) (snd r)))
                               (_getEnabledPresets l)))))
      by (apply Permutation_map, fuzzy_ranked_perm).
    rewrite (proj1 (Permutation_count_occ PresetEntry_eq_dec _ _) Hperm e).
    rewrite fuzzy_entries_as_filter.
    apply (filtered_enabled_twice l
             (fun r => Qltb 0 (score_of (Str.toLowerCase query) (snd r)))
             alias canonical e); auto; now apply Qltb_spec.
Qed.

Lemma alias_and_canonical_name_duplicate_entries_witness :
  let w := snd (loadRootIndex Example.net Example.fresh) in
  let w2 :=
    snd (enableLibrary Example.net "FluidR3 GM"
           (snd (enableLibrary Example.net "FluidR3_GM" w))) in
  PresetLoader.enabledLibraries (this w2) = ["FluidR3_GM"%string; "FluidR3 GM"%string]
  /\ fetched w2 =
     ["https://cdn.example/presets/index.json"%string;
      "https://cdn.example/presets/FluidR3_GM/index.json"%string]
  /\ 2 <= count_occ PresetEntry_eq_dec
            (search SearchOptions.none (this w2)) Example.grandPiano
  /\ 2 <= count_occ PresetEntry_eq_dec
            (fuzzySearch "piano" 20 (this w2)) Example.grandPiano.
Proof.
  intros w w2.
  assert (Hnf : ~ flat_library "FluidR3_GM" (Example.root "FluidR3 GM"))
    by (apply flat_test_false; reflexivity).
  assert (Hne : SubIndexEntry.name
                  (Example.sub "FluidR3 GM" "FluidR3_GM/index.json")
                <> "FluidR3_GM"%string) by discriminate.
  destruct (alias_and_canonical_name_duplicate_entries
              Example.net w (mkObj 0 (Example.root "FluidR3 GM")) "FluidR3_GM"
              (Example.sub "FluidR3 GM" "FluidR3_GM/index.json")
              (mkResponse 200 (Some Example.fluid) None []) Example.fluid
              eq_refl eq_refl Hnf eq_refl Hne eq_refl eq_refl eq_refl)
    as [_ [_ [_ [_ [_ [_ Hdup]]]]]].
  destruct (Hdup Example.grandPiano) as [_ [_ [Hsearch Hfuzzy]]].
  { simpl. auto. }
  split; [reflexivity|]. split; [reflexivity|]. split.
  - apply Hsearch; apply matches_filters_spec; reflexivity.
  - apply Hfuzzy.
    + reflexivity.
    + vm_compute. repeat constructor.
Defined.

(* ================================================================== *)
(** * Audio decoding *)
(* ================================================================== *)








(* ================================================================== *)
(** * Decoding the zones of a sampler *)
(* ================================================================== *)

Lemma start_zones_fst :
  forall zs presetUrl w, map fst (fst (start_zones zs presetUrl w)) = zs.
Proof.
  induction zs as [|z zs IH]; intros presetUrl w; simpl; [reflexivity|].
  destruct (decodeAudio_start (audio z) presetUrl w) as [s w1].
  specialize (IH presetUrl w1).
  destruct (start_zones zs presetUrl w1) as [rest w2]. simpl in *.
  now rewrite IH.
Qed.

Lemma settled_suspended_partition :
  forall l,
    Permutation (map fst (settled_of l) ++ map fst (suspended_of l))
      (map fst l).
Proof.
  induction l as [|[z [r|p]] l IH]; simpl.
  - apply Permutation_refl.
  - now apply perm_skip.
  - apply Permutation_sym, Permutation_cons_app, Permutation_sym, IH.
Qed.

Lemma extract_perm :
  forall (A : Type) k (l : list A) x r,
    extract k l = Some (x, r) -> Permutation l (x :: r).
Proof.
  intros A k l. revert k.
  induction l as [|y l IH]; intros k x r H; simpl in H; [discriminate|].
  destruct k as [|k]; simpl in H.
  - injection H as <- <-. apply Permutation_refl.
  - destruct (extract k l) as [[y' r']|] eqn:E; [|discriminate].
    injection H as <- <-.
    eapply Permutation_trans; [apply perm_skip, (IH k y' r' E) | apply perm_swap].
Qed.

Lemma schedule_order_perm :
  forall (A : Type) sched (l : list A), Permutation (schedule_order sched l) l.
Proof.
  intros A sched. induction sched as [|k sched IH]; intros l; simpl.
  - apply Permutation_refl.
  - destruct (extract (k mod List.length l) l) as [[x r]|] eqn:E.
    + apply Permutation_sym.
      eapply Permutation_trans; [apply (extract_perm _ _ _ _ _ E)|].
      apply perm_skip, Permutation_sym, IH.
    + apply Permutation_refl.
Qed.

Lemma resume_zones_fst :
  forall net ps w, map fst (fst (resume_zones net ps w)) = map fst ps.
Proof.
  intros net. induction ps as [|[z p] ps IH]; intros w; simpl; [reflexivity|].
  destruct (decodeAudio_resume net p w) as [r w1].
  specialize (IH w1). destruct (resume_zones net ps w1) as [rest w2].
  simpl in *. now rewrite IH.
Qed.

(** Every zone settles exactly once. *)
Lemma settle_zones_covers :
  forall net sched config presetUrl w,
    Permutation (map fst (fst (settle_zones net sched config presetUrl w)))
      (zones config).
Proof.
  intros net sched config presetUrl w. unfold settle_zones.
  pose proof (start_zones_fst (zones config) presetUrl w) as Hs.
  destruct (start_zones (zones config) presetUrl w) as [started w1].
  simpl in Hs.
  pose proof (resume_zones_fst net
                (schedule_order sched (suspended_of started)) w1) as Hr.
  destruct (resume_zones net (schedule_order sched (suspended_of started)) w1)
    as [late w2]. simpl in *.
  rewrite map_app, Hr, <- Hs.
  eapply Permutation_trans; [|apply settled_suspended_partition].
  apply Permutation_app_head, Permutation_map, schedule_order_perm.
Qed.

Section Rejection.
Variables A B : Type.
Implicit Types l : list (A * result B).

Lemma first_rejection_None :
  forall l, first_rejection l = None <-> forall a e, ~ In (a, Err e) l.
Proof.
  induction l as [|[a [b|e]] l IH]; simpl.
  - split; [intros _ a e [] | reflexivity].
  - rewrite IH. split.
    + intros H a' e' [Hd|Hin]; [discriminate | now apply (H a' e')].
    + intros H a' e' Hin. apply (H a' e'). now right.
  - split; [discriminate|]. intros H. exfalso. apply (H a e). now left.
Qed.

Lemma first_rejection_Some :
  forall l e, first_rejection l = Some e -> exists a, In (a, Err e) l.
Proof.
  induction l as [|[a [b|e']] l IH]; simpl; intros e H.
  - discriminate.
  - destruct (IH e H) as [a' Ha']. exists a'. now right.
  - injection H as <-. exists a. now left.
Qed.

End Rejection.

Section ZoneMap.

Local Abbreviation add := record_zone.

Lemma zone_fold_origin :
  forall l m0 id b,
    JsMap.get Nat.eq_dec (fold_left add l m0) id = Some b ->
    JsMap.get Nat.eq_dec m0 id = Some b
    \/ exists z, In (z, Ok b) l /\ zone_id z = id.
Proof.
  induction l as [|[z [b'|e]] l IH]; intros m0 id b H; simpl in H.
  - now left.
  - apply IH in H. destruct H as [H|[z' [Hin Hid]]].
    + unfold record_zone in H. simpl in H.
      destruct (Nat.eq_dec id (zone_id z)) as [->|Hne].
      * rewrite get_set_same in H. injection H as <-.
        right. exists z. split; [now left | reflexivity].
      * rewrite get_set_other in H by assumption. now left.
    + right. exists z'. split; [now right | exact Hid].
  - apply IH in H. destruct H as [H|[z' [Hin Hid]]].
    + now left.
    + right. exists z'. split; [now right | exact Hid].
Qed.

Lemma zone_fold_keeps :
  forall l m0 id,
    JsMap.has Nat.eq_dec m0 id = true ->
    JsMap.has Nat.eq_dec (fold_left add l m0) id = true.
Proof.
  induction l as [|[z [b'|e]] l IH]; intros m0 id H; simpl.
  - exact H.
  - apply IH. unfold record_zone. simpl.
    destruct (Nat.eq_dec id (zone_id z)) as [->|Hne].
    + apply has_set_same.
    + now rewrite has_set_other.
  - now apply IH.
Qed.

Lemma zone_fold_covers :
  forall l m0 z b,
    In (z, Ok b) l ->
    JsMap.has Nat.eq_dec (fold_left add l m0) (zone_id z) = true.
Proof.
  induction l as [|[z' r] l IH]; intros m0 z b Hin; simpl.
  - contradiction.
  - destruct Hin as [[= -> ->]|Hin].
    + apply zone_fold_keeps. unfold record_zone. simpl. apply has_set_same.
    + now apply (IH _ z b).
Qed.

Lemma zone_fold_wf :
  forall l m0, JsMap.wf m0 -> JsMap.wf (fold_left add l m0).
Proof.
  induction l as [|[z [b'|e]] l IH]; intros m0 H; simpl; auto.
  apply IH. unfold record_zone. simpl. now apply wf_set.
Qed.

End ZoneMap.

(** C9: whatever the order in which the host answers, every zone of
    the configuration settles exactly once.  If no zone fails,
    [decodeSamplerZones] returns a map that binds the identity of
    every zone, each binding being a buffer that a zone of that
    identity was decoded to, and binds nothing else.  If a zone fails,
    the call fails with the error of a failing zone, hence with that
    zone's error when it is the only failure; a map is returned only
    when no zone failed. *)
Theorem decodeSamplerZones_all_or_nothing :
  forall (net : Network) (sched : list nat) (config : SamplerConfig)
         (presetUrl : option string) (w : World),
    let outcomes := fst (settle_zones net sched config presetUrl w) in
    let r := fst (decodeSamplerZones net sched config presetUrl w) in
    Permutation (map fst outcomes) (zones config)
    /\ ((forall z e, ~ In (z, Err e) outcomes) ->
        exists m,
          r = Ok m
          /\ JsMap.wf m
          /\ (forall z, In z (zones config) ->
                exists b,
                  JsMap.get Nat.eq_dec m (zone_id z) = Some b
                  /\ exists z', zone_id z' = zone_id z /\ In (z', Ok b) outcomes)
          /\ (forall id b,
                JsMap.get Nat.eq_dec m id = Some b ->
                exists z, In z (zones config) /\ zone_id z = id
                          /\ In (z, Ok b) outcomes))
    /\ (forall z e,
           In (z, Err e) outcomes ->
           (exists z' e', In (z', Err e') outcomes /\ r = Err e')
           /\ ((forall z' e', In (z', Err e') outcomes -> e' = e) -> r = Err e))
    /\ (forall m, r = Ok m -> forall z e, ~ In (z, Err e) outcomes).
Proof.
  intros net sched config presetUrl w outcomes r.
  pose proof (settle_zones_covers net sched config presetUrl w) as Hcover.
  fold outcomes in Hcover.
  assert (Hr : r = match first_rejection outcomes with
                   | Some e => Err e
                   | None => Ok (zone_map outcomes)
                   end).
  { subst r outcomes. unfold decodeSamplerZones.
    destruct (settle_zones net sched config presetUrl w) as [os w']. simpl.
    destruct (first_rejection os); reflexivity. }
  assert (Hin_zone : forall z x, In (z, x) outcomes -> In z (zones config)).
  { intros z x Hin. apply (Permutation_in _ Hcover).
    apply in_map_iff. exists (z, x). auto. }
  split; [exact Hcover|]. split; [|split].
  - intros Hnone.
    pose proof (proj2 (first_rejection_None _ _ outcomes) Hnone) as Hfirst.
    rewrite Hfirst in Hr. exists (zone_map outcomes).
    split; [exact Hr|]. split.
    { unfold zone_map. apply zone_fold_wf. constructor. }
    split.
    + intros z Hz.
      apply (Permutation_in _ (Permutation_sym Hcover)) in Hz.
      apply in_map_iff in Hz. destruct Hz as [[z0 x] [Hfst Hin]].
      simpl in Hfst. subst z0.
      destruct x as [b|e].
      * pose proof (zone_fold_covers outcomes (@JsMap.empty _ _) z b Hin) as Hhas.
        apply has_get in Hhas. destruct Hhas as [b' Hb'].
        exists b'. split; [exact Hb'|].
        apply zone_fold_origin in Hb'.
        destruct Hb' as [Hb'|[z' [Hin' Hid]]]; [discriminate|].
        exists z'. auto.
      * exfalso. exact (Hnone z e Hin).
    + intros id b Hget. apply zone_fold_origin in Hget.
      destruct Hget as [Hget|[z [Hin Hid]]]; [discriminate|].
      exists z. split; [exact (Hin_zone z _ Hin) | auto].
  - intros z e Hin.
    destruct (first_rejection outcomes) as [e0|] eqn:Hfirst.
    + destruct (first_rejection_Some _ _ outcomes e0 Hfirst) as [z0 Hz0].
      split; [exists z0, e0; auto|].
      intros Honly. rewrite Hr. f_equal. exact (Honly z0 e0 Hz0).
    + exfalso.
      exact (proj1 (first_rejection_None _ _ outcomes) Hfirst z e Hin).
  - intros m Hm. destruct (first_rejection outcomes) as [e0|] eqn:Hfirst.
    + rewrite Hr in Hm. discriminate.
    + exact (proj1 (first_rejection_None _ _ outcomes) Hfirst).
Qed.

(** The zone whose file is missing is answered first; the two others
    are decoded all the same, and the call fails with its error. *)
Lemma decodeSamplerZones_all_or_nothing_witness :
  let config :=
    mkSampler [Example.zonePcm; Example.zoneFile; Example.zoneMissing] in
  let presetUrl := Some Example.descXUrl in
  let failure :=
    FetchFailed "sample" 404 "https://cdn.example/presets/LibA/missing.wav" in
  let outcomes :=
    fst (settle_zones Example.net [1] config presetUrl Example.fresh) in
  map (fun o => zone_id (fst o)) outcomes = [0; 2; 1]
  /\ In (Example.zoneMissing, Err failure) outcomes
  /\ fst (decodeSamplerZones Example.net [1] config presetUrl Example.fresh)
     = Err failure.
Proof.
  intros config presetUrl failure outcomes.
  assert (Hout : exists b0 b1,
             outcomes =
             [(Example.zonePcm, Ok b0); (Example.zoneMissing, Err failure);
              (Example.zoneFile, Ok b1)]).
  { eexists. eexists. vm_compute. reflexivity. }
  destruct Hout as [b0 [b1 Hout]].
  assert (Hin : In (Example.zoneMissing, Err failure) outcomes).
  { rewrite Hout. right. left. reflexivity. }
  destruct (decodeSamplerZones_all_or_nothing Example.net [1] config presetUrl
              Example.fresh) as [_ [_ [Hfail _]]].
  destruct (Hfail Example.zoneMissing failure Hin) as [_ Honly].
  refine (conj _ (conj Hin (Honly _))).
  - rewrite Hout. reflexivity.
  - fold outcomes. rewrite Hout.
    intros z' e' [H|[H|[H|[]]]]; try discriminate H.
    injection H as _ <-. reflexivity.
Defined.

(* ================================================================== *)
(** * Preloading *)
(* ================================================================== *)

(** The [try]/[catch] around a name lets nothing out. *)
Lemma preload_one_never_rejects :
  forall net sched name w, fst (preload_one net sched name w) = Ok tt.
Proof.
  intros net sched name w. unfold preload_one, try_catch.
  destruct (preload_body net sched name w) as [[[]|e] w']; reflexivity.
Qed.

Lemma run_all_never_rejects :
  forall (A : Type) (f : A -> M unit) (xs : list A) (w : World),
    (forall x w', fst (f x w') = Ok tt) ->
    first_rejection (fst (run_all f xs w)) = None.
Proof.
  intros A f xs. induction xs as [|x xs IH]; intros w Hf; simpl; [reflexivity|].
  specialize (Hf x w) as Hx. destruct (f x w) as [r w1]. simpl in Hx. subst r.
  specialize (IH w1 Hf). destruct (run_all f xs w1) as [rest w2]. simpl in *.
  exact IH.
Qed.

(** The loop over the names never fails, whatever the names, the
    network and the state. *)
Lemma preload_loop_never_rejects :
  forall net sched presetNames w,
    fst (promise_all (preload_one net sched) presetNames w) = Ok tt.
Proof.
  intros net sched presetNames w. unfold promise_all.
  pose proof (run_all_never_rejects _ (preload_one net sched) presetNames w
                (preload_one_never_rejects net sched)) as H.
  destruct (run_all (preload_one net sched) presetNames w) as [rs w'].
  simpl in H. now rewrite H.
Qed.

(** C2, on the code: the name "NoLib/X" names a library that the root
    index does not list.  [preloadAll(["NoLib/X", "LibA/Y"])] rejects
    with the error of [enableLibrary("NoLib")]: nothing is caught or
    logged, and "LibA/Y" is not preloaded.  The loop over the names,
    run on its own from the same root index, catches that very error,
    logs it, and goes on to load "LibA/Y". *)
Theorem preloadAll_rejects_on_unknown_library :
  forall sched : list nat,
    let presetNames := ["NoLib/X"%string; "LibA/Y"%string] in
    let r := preloadAll Example.net sched presetNames Example.fresh in
    let loop :=
      promise_all (preload_one Example.net sched) presetNames
        (snd (loadRootIndex Example.net Example.fresh)) in
    fst r = Err (LibraryNotFound "NoLib")
    /\ warned (snd r) = []
    /\ LRU.keys (PresetLoader.presetCache (this (snd r))) = []
    /\ fst loop = Ok tt
    /\ warned (snd loop) = [("NoLib/X"%string, LibraryNotFound "NoLib")]
    /\ LRU.keys (PresetLoader.presetCache (this (snd loop))) = ["y.json"%string].
Proof.
  intros sched. cbv zeta.
  refine (conj _ (conj _ (conj _ (conj _ (conj _ _)))));
    vm_compute; reflexivity.
Qed.

(** The example of the specification: the failure of "missing-preset"
    is caught and logged, and "LibA/X" is loaded. *)
Lemma preloadAll_missing_preset_is_logged :
  forall sched : list nat,
    let r :=
      preloadAll Example.net sched ["LibA/X"%string; "missing-preset"%string]
        Example.fresh in
    fst r = Ok tt
    /\ warned (snd r) =
       [("missing-preset"%string, PresetNotFound "missing-preset")]
    /\ LRU.keys (PresetLoader.presetCache (this (snd r))) = ["x.json"%string].
Proof.
  intros sched. cbv zeta.
  refine (conj _ (conj _ _)); vm_compute; reflexivity.
Qed.
